(** * llamachat: the websocket hub and the per-connection pumps

    A shallow embedding of [internal/websocket]: the [Hub] of hub.go
    ([registerClient], [unregisterClient], [broadcastMessage], [Run]) and the
    inbound side of client.go ([processMessage] and its handlers,
    [sendError]).

    Go values are modelled as follows.
    - [string] and [[]byte] are Rocq strings (sequences of 8-bit characters).
    - [uuid.UUID] (a 16-byte array) is the number it spells, an [N].
    - [chan []byte] is a reference into a store of channel objects; the nil
      channel is a reference the store does not hold.
    - [map[K]V] is a [gmap K V].
    - [*Client] is the record of the fields the hub reads.  Those fields are
      assigned once, in [NewClient]; the mutable part of a client, its [Send]
      channel, lives in the channel store and is shared by reference.
    - a function that can panic or wait forever returns an [outcome]. *)

From Stdlib Require Import Ascii String.
From stdpp Require Import gmap strings list fin_maps infinite.

Abbreviation bytes := string (only parsing).
Abbreviation UUID := N (only parsing).
Abbreviation chan_ref := positive (only parsing).

(** ** Channels *)

(** A buffered channel of byte slices: the elements sent and not yet
    received, oldest first, the capacity given to [make], and whether
    [close] was called. *)
Record chan := Chan {
  buf : list bytes;
  cap : nat;
  closed : bool
}.

Abbreviation chan_store := (gmap positive chan) (only parsing).

(** [make(chan []byte, n)] *)
Definition make_chan (n : nat) : chan :=
  {| buf := []; cap := n; closed := false |}.

Definition push (data : bytes) (ch : chan) : chan :=
  {| buf := buf ch ++ [data]; cap := cap ch; closed := closed ch |}.

Definition shut (ch : chan) : chan :=
  {| buf := buf ch; cap := cap ch; closed := true |}.

(** The run-time panics of the channel operations. *)
Inductive panic :=
  | CloseOfNilChannel
  | CloseOfClosedChannel
  | SendOnClosedChannel.

(** [close(ch)] *)
Definition chan_close (r : chan_ref) (cs : chan_store) : chan_store + panic :=
  match cs !! r with
  | None => inr CloseOfNilChannel
  | Some ch =>
      if closed ch then inr CloseOfClosedChannel
      else inl (<[r := shut ch]> cs)
  end.

(** What a send finds: room in the buffer, no room, or a closed channel. *)
Inductive send_result :=
  | Sent (cs : chan_store)
  | NotReady
  | SendPanics.

(** One attempt to send: a send on a closed channel panics, a send on a
    channel with a free slot proceeds, any other send (full buffer,
    nil channel) is not ready. *)
Definition chan_try_send (r : chan_ref) (data : bytes) (cs : chan_store)
  : send_result :=
  match cs !! r with
  | None => NotReady
  | Some ch =>
      if closed ch then SendPanics
      else if decide (length (buf ch) < cap ch) then Sent (<[r := push data ch]> cs)
      else NotReady
  end.

(** ** Clients and the hub *)

(** The fields of [Client] the hub and the inbound pump use. *)
Record Client := {
  ID : string;
  UserID : UUID;
  Send : chan_ref
}.

Global Instance Client_eq_dec : EqDecision Client.
Proof. solve_decision. Defined.

Record Broadcast := {
  ClientID : string;
  Message : bytes
}.

(** The two membership maps of [Hub]. *)
Record Hub := {
  clients : gmap string Client;
  userClients : gmap N string
}.

(** The hub together with the channel objects its clients point to. *)
Record World := {
  hub : Hub;
  chans : gmap positive chan
}.

(** [NewHub] *)
Definition NewHub : Hub := {| clients := ∅; userClients := ∅ |}.

(** [NewClient]: the [Send] channel is a new channel of capacity 256. *)
Definition sendBuffer : nat := 256.

Definition NewClient (id : string) (userID : UUID) (w : World) : Client * World :=
  let r := fresh (dom (chans w)) in
  ({| ID := id; UserID := userID; Send := r |},
   {| hub := hub w; chans := <[r := make_chan sendBuffer]> (chans w) |}).

(** Where a goroutine can wait forever. *)
Inductive blocked :=
  | OnHubUnregister (c : Client)   (* h.Unregister <- client *)
  | OnSend (r : chan_ref).         (* c.Send <- data *)

(** How a call ends; each case carries the state it leaves behind. *)
Inductive outcome :=
  | Returns (w : World)
  | Panics (w : World) (p : panic)
  | Blocks (w : World) (b : blocked).

Definition world_of (o : outcome) : World :=
  match o with
  | Returns w | Panics w _ | Blocks w _ => w
  end.

Definition returns (o : outcome) : Prop :=
  match o with Returns _ => True | _ => False end.

Definition and_then (o : outcome) (k : World → outcome) : outcome :=
  match o with
  | Returns w => k w
  | _ => o
  end.

Notation "o >>= k" := (and_then o k) (at level 50, left associativity).

(** [notifyUserJoin] and [notifyUserLeave] have empty bodies. *)
Definition notifyUserJoin (w : World) (client : Client) : World := w.
Definition notifyUserLeave (w : World) (client : Client) : World := w.

(** [registerClient] *)
Definition registerClient (w : World) (client : Client) : World :=
  let h := {| clients := <[ID client := client]> (clients (hub w));
              userClients := <[UserID client := ID client]> (userClients (hub w)) |} in
  notifyUserJoin {| hub := h; chans := chans w |} client.

(** [unregisterClient]: the two deletions come first, then [close]. *)
Definition unregisterClient (w : World) (client : Client) : outcome :=
  match clients (hub w) !! ID client with
  | Some _ =>
      let h := {| clients := delete (ID client) (clients (hub w));
                  userClients := delete (UserID client) (userClients (hub w)) |} in
      match chan_close (Send client) (chans w) with
      | inl cs => Returns (notifyUserLeave {| hub := h; chans := cs |} client)
      | inr p => Panics {| hub := h; chans := chans w |} p
      end
  | None => Returns w
  end.

(** The body of the [range h.clients] loop of [broadcastMessage], over the
    entries still to visit.  In the [default] branch the hub goroutine
    closes the channel and then sends on its own unbuffered [Unregister]
    channel; [Run], which is executing this very call, is the only receiver
    of that channel, so the send never completes. *)
Fixpoint broadcast_range (broadcast : Broadcast) (todo : list (string * Client))
    (w : World) : outcome :=
  match todo with
  | [] => Returns w
  | (id, client) :: todo' =>
      if decide (id ≠ ClientID broadcast) then
        match chan_try_send (Send client) (Message broadcast) (chans w) with
        | Sent cs => broadcast_range broadcast todo' {| hub := hub w; chans := cs |}
        | SendPanics => Panics w SendOnClosedChannel
        | NotReady =>
            match chan_close (Send client) (chans w) with
            | inl cs => Blocks {| hub := hub w; chans := cs |} (OnHubUnregister client)
            | inr p => Panics w p
            end
        end
      else broadcast_range broadcast todo' w
  end.

(** The order in which [range] visits a map is chosen by the runtime:
    any enumeration of the entries. *)
Definition range_order (m : gmap string Client) (order : list (string * Client)) : Prop :=
  order ≡ₚ map_to_list m.

(** [broadcastMessage], for the order [range] takes. *)
Definition broadcastMessage (w : World) (broadcast : Broadcast)
    (order : list (string * Client)) : outcome :=
  broadcast_range broadcast order w.

(** The requests [Run] selects on.  A broadcast request is recorded with the
    order its [range] loop takes. *)
Inductive request :=
  | Register (client : Client)
  | Unregister (client : Client)
  | Bcast (broadcast : Broadcast) (order : list (string * Client)).

(** One iteration of the [for { select { ... } }] loop of [Run]. *)
Definition Run_step (w : World) (r : request) : outcome :=
  match r with
  | Register client => Returns (registerClient w client)
  | Unregister client => unregisterClient w client
  | Bcast broadcast order => broadcastMessage w broadcast order
  end.

(** [Run] on the requests that arrive, in order; a panic or a send that
    never completes ends it. *)
Fixpoint Run (w : World) (rs : list request) : outcome :=
  match rs with
  | [] => Returns w
  | r :: rs' => Run_step w r >>= fun w' => Run w' rs'
  end.

(** The outbound queue of a client: the content of its [Send] channel. *)
Definition queue (w : World) (client : Client) : list bytes :=
  match chans w !! Send client with
  | Some ch => buf ch
  | None => []
  end.

(** ** The inbound pump *)

(** Event types *)
Definition EventTypeMessage : string := "message".
Definition EventTypeUserJoin : string := "user_join".
Definition EventTypeUserLeave : string := "user_leave".
Definition EventTypeTyping : string := "typing".
Definition EventTypeReadReceipt : string := "read_receipt".
Definition EventTypeError : string := "error".

(** [Message]: the wire envelope ([Message_] here, [Message] being the field
    of [Broadcast]; [Type_] for its field [Type]).  [Timestamp] is kept in the
    RFC 3339 text form it has on the wire; [Payload] is a [json.RawMessage]. *)
Record Message_ := {
  Type_ : string;
  Timestamp : string;
  Payload : bytes
}.

(** The channel sends a pump function performs, in program order. *)
Inductive effect :=
  | HubBroadcast (b : Broadcast)              (* c.Hub.Broadcast <- b *)
  | ClientSend (r : chan_ref) (data : bytes). (* c.Send <- data *)

Definition dquote : string := String "034"%char EmptyString.

Section Pump.
(** [encoding/json] and the clock are outside the repository. *)
Variable json_Unmarshal : bytes → option Message_.
Variable json_Marshal : Message_ → option bytes.
Variable time_Now : string.

(** [handleChatMessage] *)
Definition handleChatMessage (c : Client) (payload : bytes) : list effect :=
  [HubBroadcast {| ClientID := ID c; Message := payload |}].

(** [handleTypingEvent] *)
Definition handleTypingEvent (c : Client) (payload : bytes) : list effect :=
  [HubBroadcast {| ClientID := ID c; Message := payload |}].

(** [handleReadReceipt] has an empty body. *)
Definition handleReadReceipt (c : Client) (payload : bytes) : list effect :=
  [].

(** [sendError] *)
Definition sendError (c : Client) (errMsg : string) : list effect :=
  let msg := {| Type_ := EventTypeError;
                Timestamp := time_Now;
                Payload := "{" +:+ dquote +:+ "error" +:+ dquote +:+ ":" +:+ dquote
                           +:+ errMsg +:+ dquote +:+ "}" |} in
  match json_Marshal msg with
  | None => []
  | Some data => [ClientSend (Send c) data]
  end.

(** [processMessage] *)
Definition processMessage (c : Client) (data : bytes) : list effect :=
  match json_Unmarshal data with
  | None => sendError c "Invalid message format"
  | Some msg =>
      if decide (Type_ msg = EventTypeMessage) then handleChatMessage c (Payload msg)
      else if decide (Type_ msg = EventTypeTyping) then handleTypingEvent c (Payload msg)
      else if decide (Type_ msg = EventTypeReadReceipt) then handleReadReceipt c (Payload msg)
      else sendError c "Unknown message type"
  end.
End Pump.

(** A plain send [ch <- data]: it completes when the buffer has room,
    panics on a closed channel and waits otherwise. *)
Definition chan_send (r : chan_ref) (data : bytes) (w : World) : outcome :=
  match chan_try_send r data (chans w) with
  | Sent cs => Returns {| hub := hub w; chans := cs |}
  | SendPanics => Panics w SendOnClosedChannel
  | NotReady => Blocks w (OnSend r)
  end.

(** Carrying out the sends of a pump function.  A send on the hub's
    [Broadcast] channel is received by [Run], which calls
    [broadcastMessage]; [order] is the order that call's loop takes. *)
Definition perform (order : list (string * Client)) (w : World) (e : effect) : outcome :=
  match e with
  | HubBroadcast b => Run_step w (Bcast b order)
  | ClientSend r data => chan_send r data w
  end.

Fixpoint perform_all (order : list (string * Client)) (w : World) (es : list effect)
  : outcome :=
  match es with
  | [] => Returns w
  | e :: es' => perform order w e >>= fun w' => perform_all order w' es'
  end.

(** ** A codec for compact envelope frames

    [encoding/json] is a library; the pump functions above take it as a
    parameter.  The closed examples below need one concrete codec.  This one
    reads and writes frames of the exact compact shape

      {"type":"T","payload":P}     {"type":"T","timestamp":"S","payload":P}

    with no escapes in T; a decoded frame without a timestamp field gets the
    zero time. *)

Definition jstr (s : string) : string := dquote +:+ s +:+ dquote.

Fixpoint strip_prefix (p s : string) : option string :=
  match p, s with
  | EmptyString, _ => Some s
  | String a p', String b s' => if decide (a = b) then strip_prefix p' s' else None
  | String _ _, EmptyString => None
  end.

Fixpoint until_quote (s : string) : option (string * string) :=
  match s with
  | EmptyString => None
  | String a s' =>
      if decide (a = "034"%char) then Some (EmptyString, s')
      else if decide (a = "092"%char) then None
      else match until_quote s' with
           | Some (x, rest) => Some (String a x, rest)
           | None => None
           end
  end.

Fixpoint strip_closing_brace (s : string) : option string :=
  match s with
  | EmptyString => None
  | String a EmptyString => if decide (a = "}"%char) then Some EmptyString else None
  | String a s' =>
      match strip_closing_brace s' with
      | Some x => Some (String a x)
      | None => None
      end
  end.

Definition zeroTime : string := "0001-01-01T00:00:00Z".

Definition decodeEnvelope (data : bytes) : option Message_ :=
  match strip_prefix ("{" +:+ jstr "type" +:+ ":" +:+ dquote) data with
  | None => None
  | Some rest =>
      match until_quote rest with
      | None => None
      | Some (t, rest) =>
          match strip_prefix ("," +:+ jstr "payload" +:+ ":") rest with
          | None => None
          | Some rest =>
              match strip_closing_brace rest with
              | None | Some EmptyString => None
              | Some p => Some {| Type_ := t; Timestamp := zeroTime; Payload := p |}
              end
          end
      end
  end.

Definition encodeEnvelope (msg : Message_) : option bytes :=
  Some ("{" +:+ jstr "type" +:+ ":" +:+ jstr (Type_ msg) +:+ ","
        +:+ jstr "timestamp" +:+ ":" +:+ jstr (Timestamp msg) +:+ ","
        +:+ jstr "payload" +:+ ":" +:+ Payload msg +:+ "}").

(** The frame {"type":T,"payload":P} and the object {"K":"V"}. *)
Definition frame (t : string) (payload : bytes) : bytes :=
  "{" +:+ jstr "type" +:+ ":" +:+ jstr t +:+ "," +:+ jstr "payload" +:+ ":"
  +:+ payload +:+ "}".

Definition object1 (k v : string) : bytes :=
  "{" +:+ jstr k +:+ ":" +:+ jstr v +:+ "}".

(** ** Vocabulary of the statements *)

(** The handler's last steps: [NewClient], then [hub.Register <- client],
    which [Run] receives. *)
Definition connect (id : string) (userID : UUID) (w : World) : Client * World :=
  let '(client, w1) := NewClient id userID w in
  (client, registerClient w1 client).

(** The hub of [NewHub], before any client exists. *)
Definition world0 : World := {| hub := NewHub; chans := ∅ |}.

Definition request_client (r : request) : option Client :=
  match r with
  | Register client | Unregister client => Some client
  | Bcast _ _ => None
  end.

(** The clients a sequence of requests mentions. *)
Definition mentioned (rs : list request) (client : Client) : Prop :=
  Some client ∈ request_client <$> rs.

(** A connection ID names one connection: equal IDs, equal owners. *)
Definition ids_identify (rs : list request) : Prop :=
  ∀ c1 c2, mentioned rs c1 → mentioned rs c2 → ID c1 = ID c2 → UserID c1 = UserID c2.

(** No user owns two connections. *)
Definition one_connection_per_user (rs : list request) : Prop :=
  ∀ c1 c2, mentioned rs c1 → mentioned rs c2 → UserID c1 = UserID c2 → ID c1 = ID c2.

(** The two directions of the consistency of the membership maps. *)
Definition index_in_primary (h : Hub) : Prop :=
  ∀ u id, userClients h !! u = Some id → is_Some (clients h !! id).

Definition primary_in_index (h : Hub) : Prop :=
  ∀ id, is_Some (clients h !! id) → ∃ u, userClients h !! u = Some id.

Definition membership_consistent (h : Hub) : Prop :=
  ∀ id, is_Some (clients h !! id) ↔ ∃ u, userClients h !! u = Some id.

(** Registered clients have channels of their own. *)
Definition queues_distinct (w : World) : Prop :=
  ∀ id1 id2 c1 c2,
    clients (hub w) !! id1 = Some c1 → clients (hub w) !! id2 = Some c2 →
    Send c1 = Send c2 → id1 = id2.

(** Every registered client but [origin] has an open channel with [n]
    free slots. *)
Definition room_for (n : nat) (origin : string) (w : World) : Prop :=
  ∀ id c, clients (hub w) !! id = Some c → id ≠ origin →
    ∃ ch, chans w !! Send c = Some ch ∧ closed ch = false ∧ length (buf ch) + n ≤ cap ch.

(** The broadcast requests of [origin] for the messages [ms], each with the
    order its loop takes. *)
Definition broadcasts (origin : string) (ms : list (bytes * list (string * Client)))
  : list request :=
  (λ mo, Bcast {| ClientID := origin; Message := mo.1 |} mo.2) <$> ms.

(** The registered clients whose queue grew by exactly [ms] from [w] to [w']. *)
Definition received (ms : list bytes) (w w' : World) : gmap string Client :=
  filter (λ kv, queue w' kv.2 = queue w kv.2 ++ ms) (clients (hub w)).

(** A hard ceiling on the number of connections would be a number [n] such
    that a hub holding [n] connections rejects a registration. *)
Definition rejects_at (n : nat) : Prop :=
  ∀ w client, n ≤ size (clients (hub w)) →
    clients (hub w) !! ID client = None →
    hub (registerClient w client) = hub w.

(** The channels a broadcast of [origin] sends on when its loop visits
    [todo]. *)
Definition recipients (origin : string) (todo : list (string * Client)) : list positive :=
  (λ kv, Send kv.2) <$> filter (λ kv : string * Client, kv.1 ≠ origin) todo.

(** A channel after the sends of [ms], in order. *)
Definition push_list (ms : list bytes) (ch : chan) : chan :=
  {| buf := buf ch ++ ms; cap := cap ch; closed := closed ch |}.

(** Registered clients have a channel in the store. *)
Definition queues_allocated (w : World) : Prop :=
  ∀ id c, clients (hub w) !! id = Some c → is_Some (chans w !! Send c).

(** The clients of a request are among those [rs] mentions. *)
Definition from_requests (rs : list request) (r : request) : Prop :=
  ∀ c, request_client r = Some c → mentioned rs c.

(** Every entry of the user index points at a registered client of that
    user. *)
Definition index_ok (rs : list request) (h : Hub) : Prop :=
  ∀ u id, userClients h !! u = Some id →
    ∃ c, clients h !! id = Some c ∧ ID c = id ∧ UserID c = u ∧ mentioned rs c.

(** Every registered client is the one its user's index entry points at. *)
Definition primary_ok (rs : list request) (h : Hub) : Prop :=
  ∀ id c, clients h !! id = Some c →
    ID c = id ∧ mentioned rs c ∧ userClients h !! UserID c = Some id.

(** ** Connections of the examples *)

(** Two connections of user 7 and one of user 8. *)
Definition phone : Client := {| ID := "phone"; UserID := 7; Send := 1 |}.
Definition laptop : Client := {| ID := "laptop"; UserID := 7; Send := 2 |}.
Definition guest : Client := {| ID := "guest"; UserID := 8; Send := 3 |}.

(** Their channels, as [NewClient] makes them, and the hub before any of
    them registers. *)
Definition device_chans : gmap positive chan :=
  <[1%positive := make_chan sendBuffer]>
    (<[2%positive := make_chan sendBuffer]>
       (<[3%positive := make_chan sendBuffer]> ∅)).

Definition world_devices : World := {| hub := NewHub; chans := device_chans |}.

(** The hub with the three of them registered, and one order in which
    [range] can visit its clients. *)
Definition world_three : World :=
  registerClient (registerClient (registerClient world_devices phone) laptop) guest.

Definition order_three : list (string * Client) :=
  [("guest", guest); ("laptop", laptop); ("phone", phone)].

(** A broadcast request whose origin was never registered. *)
Definition stale : Broadcast := {| ClientID := "ghost"; Message := "m" |}.

(** ** The overflow scenario

    The phone and the laptop are registered; the phone broadcasts 256
    messages that the laptop's write pump does not take off its queue; the
    guest registers; the phone broadcasts once more, and [range] visits the
    laptop before the guest. *)
Definition world_two : World :=
  registerClient (registerClient world_devices phone) laptop.

Definition order_two : list (string * Client) :=
  [("laptop", laptop); ("phone", phone)].

Definition flood : list (bytes * list (string * Client)) :=
  replicate sendBuffer ("m", order_two).

Definition world_slow : World :=
  registerClient (world_of (Run world_two (broadcasts "phone" flood))) guest.

Definition order_slow : list (string * Client) :=
  [("laptop", laptop); ("guest", guest); ("phone", phone)].

Definition late : Broadcast := {| ClientID := "phone"; Message := "late" |}.

(** ** The end-to-end scenario: A connects, then B *)

Definition scenario_A : Client * World := connect "A" 1 world0.
Definition client_A : Client := scenario_A.1.
Definition scenario_B_new : Client * World := NewClient "B" 2 scenario_A.2.
Definition client_B : Client := scenario_B_new.1.
(** The state in which [Run] receives B's registration, and the state after. *)
Definition world_A : World := scenario_B_new.2.
Definition world_AB : World := registerClient world_A client_B.

(** The frames of the examples, the clock reading and the order [range]
    takes in [world_AB]. *)
Definition hi_payload : bytes := object1 "text" "hi".
Definition hi_frame : bytes := frame "message" hi_payload.
Definition typing_frame : bytes := frame "typing" (object1 "chat" "c1").
Definition receipt_frame : bytes := frame "read_receipt" (object1 "id" "m1").
Definition noon : string := "2024-01-01T12:00:00Z".
Definition order_AB : list (string * Client) := [("A", client_A); ("B", client_B)].

(** ** The outbound pump *)

(** Constants for the WebSocket connection; a [time.Duration] counts
    nanoseconds. *)
Definition second : Z := 1000000000.
Definition writeWait : Z := 10 * second.
Definition pongWait : Z := 60 * second.
Definition pingPeriod : Z := (pongWait * 9) `quot` 10.
Definition maxMessageSize : Z := 8192.

(** [newline] *)
Definition newline : bytes := String "010"%char EmptyString.

(** A channel after its oldest element was received. *)
Definition pop (ch : chan) : chan :=
  {| buf := tail (buf ch); cap := cap ch; closed := closed ch |}.

(** What a receive [v, ok := <-ch] finds: an element, a closed and drained
    channel ([ok] is false), or nothing yet. *)
Inductive recv_result :=
  | Received (data : bytes) (cs : chan_store)
  | RecvClosed
  | RecvNotReady.

Definition chan_recv (r : chan_ref) (cs : chan_store) : recv_result :=
  match cs !! r with
  | None => RecvNotReady
  | Some ch =>
      match buf ch with
      | data :: _ => Received data (<[r := pop ch]> cs)
      | [] => if closed ch then RecvClosed else RecvNotReady
      end
  end.

(** [len(ch)] *)
Definition chan_len (r : chan_ref) (cs : chan_store) : nat :=
  match cs !! r with
  | Some ch => length (buf ch)
  | None => 0
  end.

(** The calls the pumps make on the socket and on a message writer, with
    the arguments that matter. *)
Inductive message_type := TextMessage | CloseMessage | PingMessage.

Inductive socket_call :=
  | SetReadLimit (limit : Z)
  | SetReadDeadline (after : Z)
  | SetPongHandler
  | SetWriteDeadline (after : Z)
  | WriteMessage (t : message_type) (data : bytes)
  | NextWriter (t : message_type)
  | WriterWrite (data : bytes)
  | WriterClose
  | SocketClose.

(** Whether the fallible socket calls of one iteration succeed. *)
Record socket_answers := {
  NextWriter_ok : bool;
  WriterClose_ok : bool;
  WriteMessage_ok : bool
}.

(** The case of the [select] of [WritePump] that fires. *)
Inductive select_case := CaseSend | CaseTick.

(** How one iteration of the loop of [WritePump] ends: the loop goes on,
    the function returns (its deferred [c.Socket.Close()] included), the chosen
    case is not ready, or a receive inside the iteration waits; with the
    state it leaves and the calls it made. *)
Inductive pump_status := Continues | Finishes | Waits | Stuck.

Record pump_step := PumpStep {
  status : pump_status;
  after : World;
  calls : list socket_call
}.

(** The inner loop [for i := 0; i < n; i++ { w.Write(newline); w.Write(<-c.Send) }];
    the boolean tells whether it ran to its end. *)
Fixpoint write_queued (n : nat) (r : chan_ref) (cs : chan_store)
  : list socket_call * chan_store * bool :=
  match n with
  | 0 => ([], cs, true)
  | S n' =>
      match chan_recv r cs with
      | Received data cs' =>
          let '(calls, cs'', done) := write_queued n' r cs' in
          (WriterWrite newline :: WriterWrite data :: calls, cs'', done)
      | RecvClosed =>
          let '(calls, cs'', done) := write_queued n' r cs in
          (WriterWrite newline :: WriterWrite EmptyString :: calls, cs'', done)
      | RecvNotReady => ([WriterWrite newline], cs, false)
      end
  end.

Definition with_chans (w : World) (cs : chan_store) : World :=
  {| hub := hub w; chans := cs |}.

(** One iteration of the loop of [WritePump]. *)
Definition WritePump_select (c : Client) (case : select_case) (ans : socket_answers)
    (w : World) : pump_step :=
  match case with
  | CaseSend =>
      match chan_recv (Send c) (chans w) with
      | RecvNotReady => PumpStep Waits w []
      | RecvClosed =>
          PumpStep Finishes w
            [SetWriteDeadline writeWait; WriteMessage CloseMessage EmptyString; SocketClose]
      | Received message cs =>
          if NextWriter_ok ans then
            let '(queued, cs', done) := write_queued (chan_len (Send c) cs) (Send c) cs in
            let written :=
              [SetWriteDeadline writeWait; NextWriter TextMessage; WriterWrite message]
              ++ queued in
            if done then
              if WriterClose_ok ans
              then PumpStep Continues (with_chans w cs') (written ++ [WriterClose])
              else PumpStep Finishes (with_chans w cs') (written ++ [WriterClose; SocketClose])
            else PumpStep Stuck (with_chans w cs') written
          else
            PumpStep Finishes (with_chans w cs)
              [SetWriteDeadline writeWait; NextWriter TextMessage; SocketClose]
      end
  | CaseTick =>
      if WriteMessage_ok ans
      then PumpStep Continues w
             [SetWriteDeadline writeWait; WriteMessage PingMessage EmptyString]
      else PumpStep Finishes w
             [SetWriteDeadline writeWait; WriteMessage PingMessage EmptyString; SocketClose]
  end.

Definition after_calls (before : list socket_call) (s : pump_step) : pump_step :=
  {| status := status s; after := after s; calls := before ++ calls s |}.

(** [WritePump] along a schedule: the case that fires in each iteration and
    the socket's answers.  The loop goes on while its iterations do. *)
Fixpoint WritePump (c : Client) (schedule : list (select_case * socket_answers))
    (w : World) : pump_step :=
  match schedule with
  | [] => PumpStep Continues w []
  | (case, ans) :: schedule' =>
      let s := WritePump_select c case ans w in
      match status s with
      | Continues => after_calls (calls s) (WritePump c schedule' (after s))
      | _ => s
      end
  end.

(** The bytes of the message a writer sends: what was written to it. *)
Definition written_bytes (calls : list socket_call) : bytes :=
  foldr (λ call acc, match call with WriterWrite data => data +:+ acc | _ => acc end)
        EmptyString calls.

(** Messages joined by newlines. *)
Definition join_lines (ms : list bytes) : bytes :=
  match ms with
  | [] => EmptyString
  | m :: ms' => m +:+ foldr (λ x acc, newline +:+ x +:+ acc) EmptyString ms'
  end.

Definition all_ok : socket_answers :=
  {| NextWriter_ok := true; WriterClose_ok := true; WriteMessage_ok := true |}.

(** ** The inbound pump, as a whole *)

(** What [ReadPump] does, in program order. *)
Inductive read_event :=
  | SocketCall (call : socket_call)
  | Pumped (e : effect)
  | HubUnregister (c : Client).   (* c.Hub.Unregister <- c *)

(** [ReadPump], for the messages [ReadMessage] returns before its first
    error. *)
Definition ReadPump (json_Unmarshal : bytes → option Message_)
    (json_Marshal : Message_ → option bytes) (time_Now : string)
    (c : Client) (reads : list bytes) : list read_event :=
  [SocketCall (SetReadLimit maxMessageSize); SocketCall (SetReadDeadline pongWait);
   SocketCall SetPongHandler]
  ++ (Pumped <$> mjoin (processMessage json_Unmarshal json_Marshal time_Now c <$> reads))
  ++ [HubUnregister c; SocketCall SocketClose].

(** Carrying out the events of [ReadPump]; [Run] receives what is sent to
    the hub. *)
Definition perform_read (order : list (string * Client)) (w : World) (ev : read_event)
  : outcome :=
  match ev with
  | SocketCall _ => Returns w
  | Pumped e => perform order w e
  | HubUnregister c => Run_step w (Unregister c)
  end.

Fixpoint perform_reads (order : list (string * Client)) (w : World)
    (evs : list read_event) : outcome :=
  match evs with
  | [] => Returns w
  | ev :: evs' => perform_read order w ev >>= fun w' => perform_reads order w' evs'
  end.

(** ** More vocabulary *)

(** Whether a frame decodes into an envelope the pump forwards, and the
    payloads of the frames that do. *)
Definition forwarded (json_Unmarshal : bytes → option Message_) (data : bytes)
  : option bytes :=
  match json_Unmarshal data with
  | Some msg =>
      if decide (Type_ msg = EventTypeMessage ∨ Type_ msg = EventTypeTyping)
      then Some (Payload msg) else None
  | None => None
  end.

(** A frame that decodes into an envelope of a recognized type. *)
Definition recognized (json_Unmarshal : bytes → option Message_) (data : bytes) : Prop :=
  ∃ msg, json_Unmarshal data = Some msg ∧
    (Type_ msg = EventTypeMessage ∨ Type_ msg = EventTypeTyping
     ∨ Type_ msg = EventTypeReadReceipt).

(** The last client of a list that satisfies [P]. *)
Definition last_with (P : Client → Prop) `{∀ c, Decision (P c)} (cs : list Client)
  : option Client :=
  last (filter P cs).

(** The envelope [sendError] builds, and the error message the pump answers
    a frame with, if it answers one. *)
Definition errorMessage (time_Now : string) (errMsg : string) : Message_ :=
  {| Type_ := EventTypeError;
     Timestamp := time_Now;
     Payload := "{" +:+ dquote +:+ "error" +:+ dquote +:+ ":" +:+ dquote
                +:+ errMsg +:+ dquote +:+ "}" |}.

Definition rejected (json_Unmarshal : bytes → option Message_) (data : bytes)
  : option string :=
  match json_Unmarshal data with
  | None => Some "Invalid message format"
  | Some msg =>
      if decide (Type_ msg = EventTypeMessage ∨ Type_ msg = EventTypeTyping
                 ∨ Type_ msg = EventTypeReadReceipt)
      then None else Some "Unknown message type"
  end.

(** The laptop's channel after the flood. *)
Definition flooded_chan : chan :=
  {| buf := replicate sendBuffer "m"; cap := sendBuffer; closed := false |}.

(** The writes of the queued messages [ms] after the first one. *)
Definition queued_writes (ms : list bytes) : list socket_call :=
  flat_map (λ m, [WriterWrite newline; WriterWrite m]) ms.

(** A channel with its buffer taken. *)
Definition emptied (ch : chan) : chan :=
  {| buf := []; cap := cap ch; closed := closed ch |}.

(** The calls of an iteration that writes the queue [ms] as one text
    message, and the calls of the iteration that finds the channel closed. *)
Definition drain_calls (ms : list bytes) : list socket_call :=
  match ms with
  | [] => []
  | m :: ms' =>
      [SetWriteDeadline writeWait; NextWriter TextMessage; WriterWrite m]
      ++ queued_writes ms' ++ [WriterClose]
  end.

Definition close_calls : list socket_call :=
  [SetWriteDeadline writeWait; WriteMessage CloseMessage EmptyString; SocketClose].

(** The hub of the three devices after two broadcasts of the phone, and the
    channel of the laptop in it. *)
Definition world_queued : World :=
  world_of (Run world_three
              (broadcasts "phone" [("m1", order_three); ("m2", order_three)])).

Definition two_queued : chan :=
  {| buf := ["m1"; "m2"]; cap := sendBuffer; closed := false |}.

(** No Register request arrives while another connection of the same user is
    registered: at each Register request of the sequence, handled from the
    empty hub with the channels [cs], the registered connections of that
    user, if any, have the ID of the connection that registers. *)
Definition one_connection_at_a_time (cs : gmap positive chan) (rs : list request) : Prop :=
  ∀ n c id' c',
    rs !! n = Some (Register c) →
    clients (hub (world_of (Run {| hub := NewHub; chans := cs |} (take n rs)))) !! id'
    = Some c' →
    UserID c' = UserID c → id' = ID c.

(** A user who reconnects while a guest is connected, and a user with two
    connections at once. *)
Definition reconnect : list request :=
  [Register phone; Register guest; Unregister phone; Register laptop].

Definition two_at_once : list request :=
  [Register phone; Register laptop; Register guest].

(** A socket that refuses the writer. *)
Definition no_writer : socket_answers :=
  {| NextWriter_ok := false; WriterClose_ok := true; WriteMessage_ok := true |}.

(** * Properties *)

(** ** The codec on the frames of the examples *)

Example decode_hi :
  decodeEnvelope (frame "message" (object1 "text" "hi"))
  = Some {| Type_ := "message"; Timestamp := zeroTime; Payload := object1 "text" "hi" |}.
Proof. vm_compute. reflexivity. Qed.

Example decode_garbage : decodeEnvelope "hello" = None.
Proof. reflexivity. Qed.

(** ** What each request does to the membership maps *)

Lemma registerClient_hub w c :
  hub (registerClient w c)
  = {| clients := <[ID c := c]> (clients (hub w));
       userClients := <[UserID c := ID c]> (userClients (hub w)) |}.
Proof. reflexivity. Qed.

Lemma registerClient_chans w c : chans (registerClient w c) = chans w.
Proof. reflexivity. Qed.

Lemma unregisterClient_absent w c :
  clients (hub w) !! ID c = None → unregisterClient w c = Returns w.
Proof. intros Hnone. unfold unregisterClient. by rewrite Hnone. Qed.

Lemma unregisterClient_hub w c :
  is_Some (clients (hub w) !! ID c) →
  hub (world_of (unregisterClient w c))
  = {| clients := delete (ID c) (clients (hub w));
       userClients := delete (UserID c) (userClients (hub w)) |}.
Proof.
  intros [c0 Hc0]. unfold unregisterClient. rewrite Hc0.
  by destruct (chan_close (Send c) (chans w)).
Qed.

Lemma broadcast_range_hub b todo w :
  hub (world_of (broadcast_range b todo w)) = hub w.
Proof.
  revert w. induction todo as [|[id c] todo IH]; intros w; simpl; [done|].
  case_decide; [|apply IH].
  destruct (chan_try_send _ _ _) as [cs| |]; simpl; [|by destruct (chan_close _ _)|done].
  by rewrite IH.
Qed.

(** A property of the hub that every step keeps holds after [Run], however
    [Run] ends. *)
Lemma Run_invariant (I : Hub → Prop) (P : request → Prop) :
  (∀ w r, P r → I (hub w) → I (hub (world_of (Run_step w r)))) →
  ∀ rs w, Forall P rs → I (hub w) → I (hub (world_of (Run w rs))).
Proof.
  intros Hstep rs. induction rs as [|r rs IH]; intros w HP HI; simpl; [done|].
  apply Forall_cons in HP as [Hr HP].
  specialize (Hstep w r Hr HI).
  destruct (Run_step w r) as [w'| |]; simpl in *; [by apply IH|done|done].
Qed.

Section Membership.
Variable rs : list request.

Local Abbreviation from_rs := (from_requests rs).
Local Abbreviation index_ok := (index_ok rs).
Local Abbreviation primary_ok := (primary_ok rs).

Lemma from_rs_take n : Forall from_rs (take n rs).
Proof.
  apply Forall_forall. intros r Hr c Hc. unfold mentioned.
  apply list_elem_of_fmap. exists r. split; [done|].
  apply list_elem_of_lookup in Hr as [i Hi].
  apply lookup_take_Some in Hi as [Hi _].
  by eapply list_elem_of_lookup_2.
Qed.

Lemma index_ok_step w r :
  ids_identify rs → from_rs r → index_ok (hub w) →
  index_ok (hub (world_of (Run_step w r))).
Proof.
  intros Hids Hr HI. destruct r as [c|c|b order]; simpl.
  - assert (mentioned rs c) as Hc by by apply Hr.
    intros u id. simpl. destruct (decide (u = UserID c)) as [->|Hu].
    + rewrite lookup_insert_eq. intros [= <-]. exists c.
      by rewrite lookup_insert_eq.
    + rewrite lookup_insert_ne by done. intros Hid.
      destruct (HI u id Hid) as (c0 & Hc0 & Hid0 & Hu0 & Hm0).
      destruct (decide (ID c = id)) as [Heq|Hne].
      * exfalso. apply Hu. rewrite <- Hu0. apply Hids; congruence.
      * exists c0. by rewrite lookup_insert_ne.
  - assert (mentioned rs c) as Hc by by apply Hr.
    destruct (clients (hub w) !! ID c) as [c1|] eqn:Hin.
    + rewrite unregisterClient_hub by (by rewrite Hin).
      intros u id. simpl. destruct (decide (u = UserID c)) as [->|Hu].
      * by rewrite lookup_delete_eq.
      * rewrite lookup_delete_ne by done. intros Hid.
        destruct (HI u id Hid) as (c0 & Hc0 & Hid0 & Hu0 & Hm0).
        destruct (decide (ID c = id)) as [Heq|Hne].
        -- exfalso. apply Hu. rewrite <- Hu0. apply Hids; congruence.
        -- exists c0. by rewrite lookup_delete_ne.
    + by rewrite unregisterClient_absent.
  - unfold broadcastMessage. by rewrite broadcast_range_hub.
Qed.

Lemma primary_ok_step w r :
  one_connection_per_user rs → from_rs r → primary_ok (hub w) →
  primary_ok (hub (world_of (Run_step w r))).
Proof.
  intros Hone Hr HI. destruct r as [c|c|b order]; simpl.
  - assert (mentioned rs c) as Hc by by apply Hr.
    intros id c0. simpl. destruct (decide (ID c = id)) as [<-|Hne].
    + rewrite lookup_insert_eq. intros [= <-].
      by rewrite lookup_insert_eq.
    + rewrite lookup_insert_ne by done. intros Hc0.
      destruct (HI id c0 Hc0) as (Hid0 & Hm0 & Hu0).
      split_and!; [done..|].
      rewrite lookup_insert_ne; [done|].
      intros Heq. apply Hne. rewrite <- Hid0. by apply Hone.
  - assert (mentioned rs c) as Hc by by apply Hr.
    destruct (clients (hub w) !! ID c) as [c1|] eqn:Hin.
    + rewrite unregisterClient_hub by (by rewrite Hin).
      intros id c0. simpl. destruct (decide (ID c = id)) as [<-|Hne].
      * by rewrite lookup_delete_eq.
      * rewrite lookup_delete_ne by done. intros Hc0.
        destruct (HI id c0 Hc0) as (Hid0 & Hm0 & Hu0).
        split_and!; [done..|].
        rewrite lookup_delete_ne; [done|].
        intros Heq. apply Hne. rewrite <- Hid0. by apply Hone.
    + by rewrite unregisterClient_absent.
  - unfold broadcastMessage. by rewrite broadcast_range_hub.
Qed.

Lemma index_ok_Run cs n :
  ids_identify rs →
  index_ok (hub (world_of (Run {| hub := NewHub; chans := cs |} (take n rs)))).
Proof.
  intros Hids.
  apply (Run_invariant index_ok from_rs); [by auto using index_ok_step|apply from_rs_take|].
  intros u id. simpl. by rewrite lookup_empty.
Qed.

Lemma primary_ok_Run cs n :
  one_connection_per_user rs →
  primary_ok (hub (world_of (Run {| hub := NewHub; chans := cs |} (take n rs)))).
Proof.
  intros Hone.
  apply (Run_invariant primary_ok from_rs); [by auto using primary_ok_step|apply from_rs_take|].
  intros id c. simpl. by rewrite lookup_empty.
Qed.

Lemma index_ok_in_primary h : index_ok h → index_in_primary h.
Proof. intros HI u id Hid. destruct (HI u id Hid) as (c & -> & _). by eexists. Qed.

Lemma primary_ok_in_index h : primary_ok h → primary_in_index h.
Proof. intros HI id [c Hc]. destruct (HI id c Hc) as (_ & _ & Hu). by eexists. Qed.
End Membership.

Lemma Run_snoc r : ∀ rs w,
  Run w (rs ++ [r]) = Run w rs >>= (λ w', Run_step w' r).
Proof.
  induction rs as [|r0 rs IH]; intros w; simpl.
  - by destruct (Run_step w r).
  - destruct (Run_step w r0); simpl; [apply IH|done..].
Qed.

Lemma Run_take_S w rs n r :
  rs !! n = Some r →
  Run w (take (S n) rs) = Run w (take n rs) >>= (λ w', Run_step w' r).
Proof. intros Hr. by rewrite (take_S_r _ _ _ Hr), Run_snoc. Qed.

Lemma primary_ok_step_at_a_time rs w r :
  ids_identify rs → from_requests rs r → primary_ok rs (hub w) →
  (∀ c, r = Register c → ∀ id' c', clients (hub w) !! id' = Some c' →
     UserID c' = UserID c → id' = ID c) →
  primary_ok rs (hub (world_of (Run_step w r))).
Proof.
  intros Hids Hr HI Halone. destruct r as [c|c|b order]; simpl.
  - assert (mentioned rs c) as Hc by by apply Hr.
    intros id c0. simpl. destruct (decide (ID c = id)) as [<-|Hne].
    + rewrite lookup_insert_eq. intros [= <-]. by rewrite lookup_insert_eq.
    + rewrite lookup_insert_ne by done. intros Hc0.
      destruct (HI id c0 Hc0) as (Hid0 & Hm0 & Hu0).
      split_and!; [done..|]. rewrite lookup_insert_ne; [done|].
      intros Heq. apply Hne. symmetry. by eapply Halone.
  - assert (mentioned rs c) as Hc by by apply Hr.
    destruct (clients (hub w) !! ID c) as [c1|] eqn:Hin.
    + rewrite unregisterClient_hub by (by rewrite Hin).
      intros id c0. simpl. destruct (decide (ID c = id)) as [<-|Hne].
      * by rewrite lookup_delete_eq.
      * rewrite lookup_delete_ne by done. intros Hc0.
        destruct (HI id c0 Hc0) as (Hid0 & Hm0 & Hu0).
        destruct (HI (ID c) c1 Hin) as (Hid1 & Hm1 & Hu1).
        split_and!; [done..|]. rewrite lookup_delete_ne; [done|].
        intros Heq. apply Hne.
        assert (UserID c1 = UserID c) as Hsame by by apply Hids.
        rewrite Hsame, Heq, Hu0 in Hu1. by injection Hu1.
    + by rewrite unregisterClient_absent.
  - unfold broadcastMessage. by rewrite broadcast_range_hub.
Qed.

Lemma primary_ok_at_a_time cs rs :
  ids_identify rs → one_connection_at_a_time cs rs →
  ∀ n, primary_ok rs (hub (world_of (Run {| hub := NewHub; chans := cs |} (take n rs)))).
Proof.
  intros Hids Halone n. induction n as [|n IH].
  - rewrite take_0. intros id c. simpl. by rewrite lookup_empty.
  - destruct (rs !! n) as [r|] eqn:Hr.
    + rewrite (Run_take_S _ _ _ _ Hr).
      pose proof (Halone n) as Hn.
      destruct (Run {| hub := NewHub; chans := cs |} (take n rs)) as [wn| |]; simpl in *;
        [|done..].
      apply primary_ok_step_at_a_time; [done| |done|].
      * intros c Hc. unfold mentioned. apply list_elem_of_fmap. exists r.
        split; [done|]. by eapply list_elem_of_lookup_2.
      * intros c -> id' c'. by apply Hn.
    + apply lookup_ge_None in Hr.
      rewrite take_ge by lia. by rewrite take_ge in IH by done.
Qed.

(** The hypothesis covers the sequences in which no user ever owns two
    connections. *)
Lemma one_connection_per_user_at_a_time cs rs :
  one_connection_per_user rs → one_connection_at_a_time cs rs.
Proof.
  intros Hone n c id' c' Hn Hc' Hu.
  destruct (primary_ok_Run rs cs n Hone id' c' Hc') as (<- & Hm & _).
  apply Hone; [done| |done]. unfold mentioned. apply list_elem_of_fmap.
  exists (Register c). split; [done|]. by eapply list_elem_of_lookup_2.
Qed.

(** C1 (as amended).  From the empty hub, after each request of a sequence
    whose connection IDs each name one connection, every connection ID held
    in the user index is a key of the clients map; when moreover no Register
    request arrives while another connection of the same user is registered,
    the keys of the clients map are exactly the connection IDs held in the
    user index. *)
Theorem membership_after_each_request (rs : list request) cs n :
  ids_identify rs →
  let h := hub (world_of (Run {| hub := NewHub; chans := cs |} (take n rs))) in
  index_in_primary h ∧ (one_connection_at_a_time cs rs → membership_consistent h).
Proof.
  intros Hids h.
  assert (index_in_primary h) as H1.
  { eapply index_ok_in_primary, index_ok_Run, Hids. }
  split; [done|]. intros Halone id. split.
  - eapply primary_ok_in_index, primary_ok_at_a_time; done.
  - intros [u Hu]. by eapply H1.
Qed.

Ltac mentioned_cases :=
  repeat match goal with
  | H : mentioned _ _ |- _ =>
      unfold mentioned in H; simpl in H;
      repeat (apply elem_of_cons in H as [H|H]; [injection H as ->|]);
      try (by apply elem_of_nil in H)
  end.

Ltac registered_cases H :=
  apply elem_of_map_to_list in H;
  match type of H with
  | _ ∈ ?l => let l' := eval vm_compute in l in change l with l' in H
  end;
  repeat (apply elem_of_cons in H as [H|H]; [injection H as -> ->|]);
  try (by apply elem_of_nil in H).

Lemma reconnect_at_a_time : one_connection_at_a_time device_chans reconnect.
Proof.
  intros n c id' c' Hn Hc' Hu.
  destruct n as [|[|[|[|n]]]]; simpl in Hn; try discriminate;
    injection Hn as <-; registered_cases Hc'; done.
Qed.

Lemma membership_after_each_request_witness :
  ids_identify two_at_once ∧
  userClients (hub (world_of (Run {| hub := NewHub; chans := device_chans |}
                                  (take 3 two_at_once)))) !! 7%N = Some "laptop" ∧
  index_in_primary
    (hub (world_of (Run {| hub := NewHub; chans := device_chans |} (take 3 two_at_once)))) ∧
  ids_identify reconnect ∧
  one_connection_at_a_time device_chans reconnect ∧
  clients (hub (world_of (Run {| hub := NewHub; chans := device_chans |}
                              (take 4 reconnect)))) !! "laptop" = Some laptop ∧
  membership_consistent
    (hub (world_of (Run {| hub := NewHub; chans := device_chans |} (take 4 reconnect)))).
Proof.
  assert (ids_identify two_at_once) as H1.
  { intros c1 c2 Hc1 Hc2 Hid. by mentioned_cases. }
  assert (ids_identify reconnect) as H2.
  { intros c1 c2 Hc1 Hc2 Hid. by mentioned_cases. }
  split; [exact H1|]. split; [by vm_compute|]. split.
  - exact (proj1 (membership_after_each_request _ device_chans 3 H1)).
  - split; [exact H2|]. split; [exact reconnect_at_a_time|]. split; [by vm_compute|].
    exact (proj2 (membership_after_each_request _ device_chans 4 H2) reconnect_at_a_time).
Defined.

(** C1 (as stated) fails once a user registers a second connection: the
    first connection stays in the clients map while the user's single index
    entry now holds the second connection's ID. *)
Lemma membership_inconsistent_with_two_connections :
  ¬ membership_consistent
      (hub (world_of (Run world_devices [Register phone; Register laptop]))).
Proof.
  intros H. destruct (H "phone") as [Hfwd _].
  destruct Hfwd as [u Hu].
  { simpl. rewrite lookup_insert_ne by done. rewrite lookup_insert_eq. by eexists. }
  simpl in Hu. destruct (decide (u = 7%N)) as [->|Hne].
  - rewrite lookup_insert_eq in Hu. discriminate.
  - rewrite !lookup_insert_ne in Hu by done. by rewrite lookup_empty in Hu.
Qed.

(** ** Unregister *)

(** C9.  Processing an Unregister request for a connection that is not in
    the clients map returns normally and leaves the state as it was; so a
    second Unregister of a connection, after one that returned, changes
    nothing. *)
Theorem unregister_idempotent w client :
  (clients (hub w) !! ID client = None →
   Run_step w (Unregister client) = Returns w) ∧
  (∀ w', Run_step w (Unregister client) = Returns w' →
   Run_step w' (Unregister client) = Returns w').
Proof.
  split; simpl.
  - apply unregisterClient_absent.
  - intros w' Hfirst. apply unregisterClient_absent.
    unfold unregisterClient in Hfirst.
    destruct (clients (hub w) !! ID client) eqn:Hin.
    + destruct (chan_close _ _); [|done].
      injection Hfirst as <-. simpl. apply lookup_delete_eq.
    + by injection Hfirst as <-.
Qed.

Lemma unregister_idempotent_witness :
  clients (hub world_A) !! ID client_B = None ∧
  Run_step world_A (Unregister client_B) = Returns world_A ∧
  ∃ w', Run_step world_AB (Unregister client_B) = Returns w' ∧
        Run_step w' (Unregister client_B) = Returns w'.
Proof.
  assert (clients (hub world_A) !! ID client_B = None) as Habsent by by vm_compute.
  split; [exact Habsent|]. split.
  - exact (proj1 (unregister_idempotent world_A client_B) Habsent).
  - eexists. split; [by vm_compute|].
    apply (proj2 (unregister_idempotent world_AB client_B)). by vm_compute.
Defined.

(** C10.  With two connections of one user registered, the second after the
    first, the user's index entry holds the second connection's ID;
    unregistering the first deletes that entry although the second
    connection stays in the clients map. *)
Theorem unregister_first_drops_index_of_second w c1 c2 :
  UserID c1 = UserID c2 → ID c1 ≠ ID c2 →
  let w2 := registerClient (registerClient w c1) c2 in
  let o := Run_step w2 (Unregister c1) in
  (clients (hub w2) !! ID c1 = Some c1 ∧ clients (hub w2) !! ID c2 = Some c2 ∧
   userClients (hub w2) !! UserID c2 = Some (ID c2)) ∧
  (userClients (hub (world_of o)) !! UserID c2 = None ∧
   clients (hub (world_of o)) !! ID c2 = Some c2) ∧
  ((∃ ch, chans w !! Send c1 = Some ch ∧ closed ch = false) → returns o).
Proof.
  intros Hu Hid w2 o.
  assert (clients (hub w2) !! ID c1 = Some c1) as H1.
  { simpl. rewrite lookup_insert_ne by done. apply lookup_insert_eq. }
  split_and!.
  - done.
  - simpl. apply lookup_insert_eq.
  - simpl. apply lookup_insert_eq.
  - subst o. simpl. rewrite unregisterClient_hub by by rewrite H1.
    simpl. rewrite Hu. apply lookup_delete_eq.
  - subst o. simpl. rewrite unregisterClient_hub by by rewrite H1.
    simpl. rewrite lookup_delete_ne by done. apply lookup_insert_eq.
  - intros (ch & Hch & Hopen). subst o. simpl. unfold unregisterClient.
    rewrite H1. unfold chan_close. simpl. by rewrite Hch, Hopen.
Qed.

Lemma unregister_first_drops_index_of_second_witness :
  UserID phone = UserID laptop ∧ ID phone ≠ ID laptop ∧
  userClients (hub (world_of (Run_step (registerClient (registerClient world_devices phone) laptop)
                                       (Unregister phone)))) !! UserID laptop = None ∧
  clients (hub (world_of (Run_step (registerClient (registerClient world_devices phone) laptop)
                                   (Unregister phone)))) !! ID laptop = Some laptop ∧
  returns (Run_step (registerClient (registerClient world_devices phone) laptop)
                    (Unregister phone)).
Proof.
  assert (UserID phone = UserID laptop) as Hu by reflexivity.
  assert (ID phone ≠ ID laptop) as Hid by (by vm_compute).
  pose proof (unregister_first_drops_index_of_second world_devices phone laptop Hu Hid)
    as (_ & (Hindex & Hprimary) & Hreturns).
  split; [exact Hu|]. split; [exact Hid|]. split; [exact Hindex|]. split; [exact Hprimary|].
  apply Hreturns. exists (make_chan sendBuffer). by vm_compute.
Defined.

(** ** Register *)

Lemma registerClient_queue w c client :
  queue (registerClient w c) client = queue w client.
Proof. reflexivity. Qed.

(** C4 (as amended).  A Register request never fails: whatever the hub
    holds, the request returns with the connection in the clients map under
    its ID and the user's index entry set to that ID. *)
Theorem register_always_admits w client :
  Run_step w (Register client) = Returns (registerClient w client) ∧
  clients (hub (registerClient w client)) !! ID client = Some client ∧
  userClients (hub (registerClient w client)) !! UserID client = Some (ID client).
Proof. split_and!; [done|apply lookup_insert_eq..]. Qed.

Lemma hub_of_any_size n : ∃ m : gmap string Client, size m = n.
Proof.
  induction n as [|n [m Hm]].
  - exists ∅. apply map_size_empty.
  - exists (<[fresh (dom m) := phone]> m).
    rewrite map_size_insert_None; [by rewrite Hm|].
    apply not_elem_of_dom, is_fresh.
Qed.

(** C4 (as stated) fails: no number of connections makes the hub reject a
    new one. *)
Lemma no_connection_ceiling : ¬ ∃ n, rejects_at n.
Proof.
  intros [n Hceiling]. destruct (hub_of_any_size n) as [m Hm].
  pose (client := {| ID := fresh (dom m); UserID := 0%N; Send := 1%positive |}).
  assert (m !! ID client = None) as Hnew by apply not_elem_of_dom, is_fresh.
  assert (hub (registerClient {| hub := {| clients := m; userClients := ∅ |}; chans := ∅ |}
                              client)
          = {| clients := m; userClients := ∅ |}) as Hsame.
  { apply Hceiling; simpl; [by rewrite Hm|done]. }
  apply (f_equal (λ h, clients h !! ID client)) in Hsame.
  rewrite registerClient_hub in Hsame. cbn [clients hub] in Hsame.
  rewrite lookup_insert_eq in Hsame. congruence.
Qed.

(** C6 (the code at the failing input).  A connects, then B, a connection of
    another user: [Run] handles B's Register request by [registerClient],
    whose [notifyUserJoin] does nothing, and A's outbound queue, an open
    channel with all its 256 slots free, is still empty afterwards. *)
Theorem register_sends_no_join :
  clients (hub world_A) !! "A" = Some client_A ∧
  UserID client_A ≠ UserID client_B ∧
  chans world_A !! Send client_A = Some (make_chan sendBuffer) ∧
  Run_step world_A (Register client_B) = Returns world_AB ∧
  clients (hub world_AB) !! "A" = Some client_A ∧
  clients (hub world_AB) !! "B" = Some client_B ∧
  queue world_AB client_A = [].
Proof. by vm_compute. Qed.

(** ** Broadcast *)

Lemma chan_try_send_room r data cs ch :
  cs !! r = Some ch → closed ch = false → length (buf ch) < cap ch →
  chan_try_send r data cs = Sent (<[r := push data ch]> cs).
Proof.
  intros Hch Hopen Hroom. unfold chan_try_send.
  rewrite Hch, Hopen. by rewrite decide_True.
Qed.

(** The loop of [broadcastMessage] when every channel it sends on is open,
    has a free slot and is visited once: it runs to its end and has pushed
    the message on exactly those channels. *)
Lemma broadcast_range_ok b todo : ∀ w,
  NoDup (recipients (ClientID b) todo) →
  (∀ r, r ∈ recipients (ClientID b) todo →
     ∃ ch, chans w !! r = Some ch ∧ closed ch = false ∧ length (buf ch) < cap ch) →
  ∃ w', broadcast_range b todo w = Returns w' ∧ hub w' = hub w ∧
    ∀ r, chans w' !! r =
         if decide (r ∈ recipients (ClientID b) todo)
         then push (Message b) <$> chans w !! r
         else chans w !! r.
Proof.
  induction todo as [|[id c] todo IH]; intros w Hnodup Hroom.
  - exists w. split_and!; [done..|]. intros r.
    rewrite decide_False; [done|]. apply not_elem_of_nil.
  - simpl. unfold recipients in *. rewrite filter_cons in *. simpl in *.
    destruct (decide (id ≠ ClientID b)) as [Hne|Heq]; [|by apply IH].
    rewrite fmap_cons in *. simpl in *.
    apply NoDup_cons in Hnodup as [Hfirst Hnodup].
    destruct (Hroom (Send c)) as (ch & Hch & Hopen & Hfree); [by left|].
    rewrite (chan_try_send_room _ _ _ ch) by done.
    destruct (IH {| hub := hub w; chans := <[Send c := push (Message b) ch]> (chans w) |})
      as (w' & Hrun & Hhub & Hchans); [done| |].
    { intros r Hr. simpl. rewrite lookup_insert_ne by (by intros <-).
      apply Hroom. by right. }
    exists w'. split_and!; [done..|]. intros r. rewrite Hchans. simpl.
    destruct (decide (r = Send c)) as [->|Hr].
    + rewrite (decide_False (P := Send c ∈ _)) by done.
      rewrite (decide_True (P := Send c ∈ _ :: _)) by by left.
      by rewrite lookup_insert_eq, Hch.
    + rewrite lookup_insert_ne by done.
      destruct (decide (r ∈ _)) as [Hin|Hout].
      * rewrite decide_True; [done|by right].
      * rewrite decide_False; [done|].
        intros [?|?]%elem_of_cons; done.
Qed.

Lemma elem_of_recipients origin m order r :
  range_order m order →
  r ∈ recipients origin order ↔
  ∃ id c, m !! id = Some c ∧ id ≠ origin ∧ Send c = r.
Proof.
  intros Horder. unfold recipients. rewrite list_elem_of_fmap. split.
  - intros ([id c] & -> & [Hne Hin]%list_elem_of_filter).
    exists id, c. split_and!; [|done..].
    apply elem_of_map_to_list. by rewrite <- Horder.
  - intros (id & c & Hc & Hne & <-). exists (id, c). split; [done|].
    apply list_elem_of_filter. split; [done|].
    rewrite Horder. by apply elem_of_map_to_list.
Qed.

Lemma NoDup_recipients origin w order :
  range_order (clients (hub w)) order → queues_distinct w →
  NoDup (recipients origin order).
Proof.
  intros Horder Hdistinct. unfold recipients.
  apply NoDup_fmap_2_strong.
  - intros [id1 c1] [id2 c2] [_ H1]%list_elem_of_filter [_ H2]%list_elem_of_filter Heq.
    rewrite Horder in H1, H2.
    apply elem_of_map_to_list in H1, H2. simpl in Heq.
    assert (id1 = id2) as -> by by eapply Hdistinct.
    congruence.
  - apply NoDup_filter. rewrite Horder. apply NoDup_map_to_list.
Qed.

(** One broadcast request, in terms of the registered clients. *)
Lemma broadcastMessage_ok w b order :
  range_order (clients (hub w)) order → queues_distinct w →
  room_for 1 (ClientID b) w →
  ∃ w', broadcastMessage w b order = Returns w' ∧ hub w' = hub w ∧
    ∀ id c, clients (hub w) !! id = Some c →
      chans w' !! Send c =
      if decide (id = ClientID b) then chans w !! Send c
      else push (Message b) <$> chans w !! Send c.
Proof.
  intros Horder Hdistinct Hroom.
  destruct (broadcast_range_ok b order w) as (w' & Hrun & Hhub & Hchans).
  { by eapply NoDup_recipients. }
  { intros r (id & c & Hc & Hne & <-)%(elem_of_recipients _ _ _ _ Horder).
    destruct (Hroom id c Hc Hne) as (ch & Hch & Hopen & Hfree).
    exists ch. split_and!; [done..|lia]. }
  exists w'. split_and!; [done..|]. intros id c Hc. rewrite Hchans.
  destruct (decide (id = ClientID b)) as [->|Hne].
  - rewrite decide_False; [done|].
    intros (id' & c' & Hc' & Hne & Heq)%(elem_of_recipients _ _ _ _ Horder).
    apply Hne. by eapply Hdistinct.
  - rewrite decide_True; [done|].
    apply (elem_of_recipients _ _ _ _ Horder). by exists id, c.
Qed.

Lemma push_list_nil ch : push_list [] ch = ch.
Proof. destruct ch. unfold push_list. simpl. by rewrite app_nil_r. Qed.

Lemma push_list_cons m ms ch : push_list (m :: ms) ch = push_list ms (push m ch).
Proof. unfold push_list, push. simpl. by rewrite <- app_assoc. Qed.

Lemma queues_distinct_hub w w' : hub w' = hub w → queues_distinct w → queues_distinct w'.
Proof. unfold queues_distinct. by intros ->. Qed.

(** Successive broadcast requests of one origin, handled by [Run] in the
    order they arrive. *)
Lemma broadcasts_ok origin : ∀ ms w,
  Forall (λ mo : bytes * list (string * Client), range_order (clients (hub w)) mo.2) ms →
  queues_distinct w →
  room_for (length ms) origin w →
  ∃ w', Run w (broadcasts origin ms) = Returns w' ∧ hub w' = hub w ∧
    ∀ id c, clients (hub w) !! id = Some c →
      chans w' !! Send c =
      if decide (id = origin) then chans w !! Send c
      else push_list ms.*1 <$> chans w !! Send c.
Proof.
  induction ms as [|[m order] ms IH]; intros w Horders Hdistinct Hroom.
  - exists w. split_and!; [done..|]. intros id c Hc. case_decide; [done|].
    simpl. destruct (chans w !! Send c); [|done]. simpl. by rewrite push_list_nil.
  - apply Forall_cons in Horders as [Horder Horders]. simpl in Horder.
    destruct (broadcastMessage_ok w {| ClientID := origin; Message := m |} order)
      as (w1 & Hrun1 & Hhub1 & Hchans1); [done..| |].
    { intros id c Hc Hne. destruct (Hroom id c Hc Hne) as (ch & ? & ? & ?).
      exists ch. split_and!; [done..|]. simpl in *. lia. }
    simpl in Hchans1.
    destruct (IH w1) as (w' & Hrun & Hhub & Hchans).
    { by rewrite Hhub1. }
    { by eapply queues_distinct_hub. }
    { intros id c Hc Hne. rewrite Hhub1 in Hc.
      destruct (Hroom id c Hc Hne) as (ch & Hch & Hopen & Hfree).
      exists (push m ch). rewrite (Hchans1 id c Hc), decide_False by done.
      rewrite Hch. split_and!; [done..|]. simpl in *. rewrite length_app. simpl. lia. }
    exists w'.
    change (Run w (broadcasts origin ((m, order) :: ms)))
      with (broadcastMessage w {| ClientID := origin; Message := m |} order
            >>= fun w1 => Run w1 (broadcasts origin ms)).
    rewrite Hrun1. simpl.
    split_and!; [done|congruence|].
    intros id c Hc. rewrite (Hchans id c) by by rewrite Hhub1.
    rewrite (Hchans1 id c Hc). case_decide; [done|].
    destruct (chans w !! Send c); [|done]. simpl. by rewrite push_list_cons.
Qed.

Lemma queue_push_list w w' c ms :
  is_Some (chans w !! Send c) →
  chans w' !! Send c = push_list ms <$> chans w !! Send c →
  queue w' c = queue w c ++ ms.
Proof. intros [ch Hch] Hch'. unfold queue. by rewrite Hch', Hch. Qed.

Lemma queue_same w w' c :
  chans w' !! Send c = chans w !! Send c → queue w' c = queue w c.
Proof. intros Hch. unfold queue. by rewrite Hch. Qed.

(** C3.  In a hub of N registered connections, each with a channel of its
    own, [Run] handles the broadcast requests of a registered connection A
    to their end when no recipient's queue overflows; the queue of every
    connection other than A then holds what it held followed by the
    messages in submission order, A's queue is as it was, and the
    connections whose queue grew by the messages are the N-1 others. *)
Theorem broadcast_reaches_all_others w A ms :
  is_Some (clients (hub w) !! A) →
  queues_distinct w →
  room_for (length ms) A w →
  Forall (λ mo : bytes * list (string * Client), range_order (clients (hub w)) mo.2) ms →
  ∃ w', Run w (broadcasts A ms) = Returns w' ∧ hub w' = hub w ∧
    (∀ id c, clients (hub w) !! id = Some c →
       queue w' c = if decide (id = A) then queue w c else queue w c ++ ms.*1) ∧
    (ms ≠ [] →
       received ms.*1 w w' = delete A (clients (hub w)) ∧
       size (received ms.*1 w w') = size (clients (hub w)) - 1).
Proof.
  intros HA Hdistinct Hroom Horders.
  destruct (broadcasts_ok A ms w) as (w' & Hrun & Hhub & Hchans); [done..|].
  assert (∀ id c, clients (hub w) !! id = Some c →
    queue w' c = if decide (id = A) then queue w c else queue w c ++ ms.*1) as Hqueues.
  { intros id c Hc. specialize (Hchans id c Hc). case_decide as Hid.
    - by apply queue_same.
    - apply queue_push_list; [|done].
      destruct (Hroom id c Hc Hid) as (ch & -> & _). by eexists. }
  exists w'. split_and!; [done..|]. intros Hms.
  assert (received ms.*1 w w' = delete A (clients (hub w))) as Hreceived.
  { apply map_eq. intros id. apply option_eq. intros c. unfold received.
    rewrite map_lookup_filter_Some, lookup_delete_Some. simpl. split.
    - intros [Hc Hgrew]. split; [|done]. intros <-.
      rewrite (Hqueues A c Hc), decide_True in Hgrew by done.
      apply (f_equal length) in Hgrew. rewrite length_app, length_fmap in Hgrew.
      destruct ms; [done|]. simpl in Hgrew. lia.
    - intros [Hne Hc]. split; [done|].
      by rewrite (Hqueues id c Hc), decide_False. }
  split; [done|]. rewrite Hreceived, map_size_delete_Some by done. lia.
Qed.

Ltac entry_cases H :=
  repeat (apply elem_of_cons in H as [H|H]; [injection H as -> ->|]);
  try (by apply elem_of_nil in H).

Lemma world_three_clients id c :
  clients (hub world_three) !! id = Some c ↔ (id, c) ∈ order_three.
Proof.
  rewrite <- elem_of_map_to_list.
  by replace (map_to_list (clients (hub world_three))) with order_three by by vm_compute.
Qed.

Lemma world_three_range_order : range_order (clients (hub world_three)) order_three.
Proof. unfold range_order. by vm_compute. Qed.

Lemma world_three_distinct : queues_distinct world_three.
Proof.
  intros id1 id2 c1 c2 H1%world_three_clients H2%world_three_clients Heq.
  unfold order_three in *. entry_cases H1; entry_cases H2; done.
Qed.

Lemma world_three_room n origin : n ≤ 256 → room_for n origin world_three.
Proof.
  intros Hn id c Hc%world_three_clients _. exists (make_chan sendBuffer).
  unfold order_three in *.
  entry_cases Hc; (split_and!; [by vm_compute|done|simpl; unfold sendBuffer; lia]).
Qed.

Lemma broadcast_reaches_all_others_witness :
  is_Some (clients (hub world_three) !! "phone") ∧
  queues_distinct world_three ∧
  room_for 2 "phone" world_three ∧
  ∃ w', Run world_three
            (broadcasts "phone" [("m1", order_three); ("m2", reverse order_three)])
        = Returns w' ∧
    queue w' laptop = ["m1"; "m2"] ∧ queue w' guest = ["m1"; "m2"] ∧
    queue w' phone = [] ∧
    size (received ["m1"; "m2"] world_three w') = 2.
Proof.
  assert (is_Some (clients (hub world_three) !! "phone")) as H1.
  { exists phone. by vm_compute. }
  assert (room_for 2 "phone" world_three) as H3 by (apply world_three_room; lia).
  assert (Forall (λ mo : bytes * list (string * Client),
                    range_order (clients (hub world_three)) mo.2)
                 [("m1", order_three); ("m2", reverse order_three)]) as H4.
  { apply Forall_cons. split; [apply world_three_range_order|].
    apply Forall_cons. split; [|apply Forall_nil_2].
    unfold range_order. transitivity order_three.
    - apply reverse_Permutation.
    - apply world_three_range_order. }
  split; [exact H1|]. split; [exact world_three_distinct|]. split; [exact H3|].
  destruct (broadcast_reaches_all_others world_three "phone"
              [("m1", order_three); ("m2", reverse order_three)]
              H1 world_three_distinct H3 H4)
    as (w' & Hrun & _ & Hqueues & Hreceived).
  exists w'. split; [exact Hrun|]. split_and!.
  - by rewrite (Hqueues "laptop" laptop) by by vm_compute.
  - by rewrite (Hqueues "guest" guest) by by vm_compute.
  - by rewrite (Hqueues "phone" phone) by by vm_compute.
  - destruct Hreceived as [_ Hsize]; [done|].
    etrans; [exact Hsize|]. by vm_compute.
Defined.

(** C5 (as amended).  A Broadcast request whose origin connection ID is not
    registered is handled like any other: when no queue overflows, the
    message is appended to the outbound queue of every registered
    connection, and the membership maps stay as they were. *)
Theorem broadcast_from_unregistered_origin w b order :
  clients (hub w) !! ClientID b = None →
  queues_distinct w →
  room_for 1 (ClientID b) w →
  range_order (clients (hub w)) order →
  ∃ w', Run_step w (Bcast b order) = Returns w' ∧ hub w' = hub w ∧
    ∀ id c, clients (hub w) !! id = Some c → queue w' c = queue w c ++ [Message b].
Proof.
  intros Hstale Hdistinct Hroom Horder.
  destruct (broadcastMessage_ok w b order) as (w' & Hrun & Hhub & Hchans); [done..|].
  exists w'. split_and!; [done..|]. intros id c Hc.
  assert (id ≠ ClientID b) as Hne by congruence.
  apply queue_push_list.
  - destruct (Hroom id c Hc Hne) as (ch & -> & _). by eexists.
  - rewrite (Hchans id c Hc), decide_False by done.
    by destruct (chans w !! Send c) as [[]|].
Qed.

Lemma broadcast_from_unregistered_origin_witness :
  clients (hub world_three) !! ClientID stale = None ∧
  queues_distinct world_three ∧
  room_for 1 (ClientID stale) world_three ∧
  range_order (clients (hub world_three)) order_three ∧
  ∃ w', Run_step world_three (Bcast stale order_three) = Returns w' ∧
        hub w' = hub world_three ∧
        queue w' phone = ["m"] ∧ queue w' laptop = ["m"] ∧ queue w' guest = ["m"].
Proof.
  assert (clients (hub world_three) !! ClientID stale = None) as H1 by by vm_compute.
  assert (room_for 1 (ClientID stale) world_three) as H3 by (apply world_three_room; lia).
  split; [exact H1|]. split; [exact world_three_distinct|]. split; [exact H3|].
  split; [exact world_three_range_order|].
  destruct (broadcast_from_unregistered_origin world_three stale order_three
              H1 world_three_distinct H3 world_three_range_order)
    as (w' & Hrun & Hhub & Hqueues).
  exists w'. split; [exact Hrun|]. split; [exact Hhub|]. split_and!.
  - by rewrite (Hqueues "phone" phone) by by vm_compute.
  - by rewrite (Hqueues "laptop" laptop) by by vm_compute.
  - by rewrite (Hqueues "guest" guest) by by vm_compute.
Defined.

(** C5 (as stated) fails: the origin "ghost" is not registered, and the
    phone's queue receives the message. *)
Lemma stale_broadcast_is_delivered :
  clients (hub world_three) !! ClientID stale = None ∧
  range_order (clients (hub world_three)) order_three ∧
  queue world_three phone = [] ∧
  queue (world_of (Run_step world_three (Bcast stale order_three))) phone = ["m"].
Proof.
  split_and!; [by vm_compute|apply world_three_range_order|by vm_compute..].
Qed.

(** ** Overflow *)

Lemma world_slow_range_order : range_order (clients (hub world_slow)) order_slow.
Proof.
  unfold range_order.
  replace (map_to_list (clients (hub world_slow))) with order_three by by vm_compute.
  apply perm_swap.
Qed.

(** C2 (the code at the failing input).  In the overflow scenario the flood
    is handled to its end and leaves the laptop's queue full.  The next
    broadcast closes the laptop's channel and then the hub waits on its own
    [Unregister] channel: the laptop is still in both maps, the guest, open
    and empty, has not received the message, and [Run] handles no request
    after this one.  A malformed frame from the laptop makes its inbound pump
    wait on the full queue in [sendError]. *)
Theorem overflow_blocks_the_hub :
  range_order (clients (hub world_two)) order_two ∧
  returns (Run world_two (broadcasts "phone" flood)) ∧
  length (queue world_slow laptop) = sendBuffer ∧
  chans world_slow !! Send guest = Some (make_chan sendBuffer) ∧
  range_order (clients (hub world_slow)) order_slow ∧
  (∃ w', (∀ rs, Run world_slow (Bcast late order_slow :: rs)
                = Blocks w' (OnHubUnregister laptop)) ∧
     clients (hub w') !! "laptop" = Some laptop ∧
     userClients (hub w') !! UserID laptop = Some "laptop" ∧
     closed <$> chans w' !! Send laptop = Some true ∧
     queue w' guest = []) ∧
  decodeEnvelope "hello" = None ∧
  perform_all order_slow world_slow
    (processMessage decodeEnvelope encodeEnvelope noon laptop "hello")
  = Blocks world_slow (OnSend (Send laptop)).
Proof.
  split; [unfold range_order; by vm_compute|].
  split; [by vm_compute|]. split; [by vm_compute|]. split; [by vm_compute|].
  split; [apply world_slow_range_order|]. split; [|split; by vm_compute].
  eexists. split; [intros rs; simpl|split_and!].
  - unfold broadcastMessage.
    match goal with
    | |- ?o >>= _ = _ => let o' := eval vm_compute in o in change o with o'
    end.
    reflexivity.
  - by vm_compute.
  - by vm_compute.
  - by vm_compute.
  - by vm_compute.
Qed.

(** Had [Run] received the Unregister request the overflow path sends, it
    would have closed the laptop's channel a second time. *)
Lemma unregister_after_overflow_panics :
  ∃ w p, Run_step (world_of (Run_step world_slow (Bcast late order_slow)))
                  (Unregister laptop) = Panics w p ∧ p = CloseOfClosedChannel.
Proof. eexists _, _. split; by vm_compute. Qed.

(** ** The inbound pump *)

Lemma processMessage_chat json_Unmarshal json_Marshal now c data msg :
  json_Unmarshal data = Some msg →
  Type_ msg = EventTypeMessage →
  processMessage json_Unmarshal json_Marshal now c data
  = handleChatMessage c (Payload msg).
Proof.
  intros Hdecode Htag. unfold processMessage.
  by rewrite Hdecode, Htag, decide_True.
Qed.

(** C8 (as amended).  For a frame that decodes into an envelope tagged
    "message" or "typing", the inbound pump sends the hub one Broadcast
    request, tagged with the connection's ID, whose message is the payload
    of the envelope. *)
Theorem pump_dispatches_payload json_Unmarshal json_Marshal now c data msg :
  json_Unmarshal data = Some msg →
  Type_ msg = EventTypeMessage ∨ Type_ msg = EventTypeTyping →
  processMessage json_Unmarshal json_Marshal now c data
  = [HubBroadcast {| ClientID := ID c; Message := Payload msg |}].
Proof.
  intros Hdecode Htag. unfold processMessage. rewrite Hdecode.
  destruct Htag as [Htag|Htag]; rewrite Htag.
  - by rewrite decide_True.
  - rewrite decide_False by done. by rewrite decide_True.
Qed.

Lemma pump_dispatches_payload_witness :
  decodeEnvelope typing_frame
  = Some {| Type_ := "typing"; Timestamp := zeroTime; Payload := object1 "chat" "c1" |} ∧
  processMessage decodeEnvelope encodeEnvelope noon client_A typing_frame
  = [HubBroadcast {| ClientID := "A"; Message := object1 "chat" "c1" |}].
Proof.
  assert (decodeEnvelope typing_frame
          = Some {| Type_ := "typing"; Timestamp := zeroTime;
                    Payload := object1 "chat" "c1" |}) as Hdecode by by vm_compute.
  split; [exact Hdecode|].
  exact (pump_dispatches_payload decodeEnvelope encodeEnvelope noon client_A typing_frame _
           Hdecode (or_intror eq_refl)).
Defined.

(** C8 (as stated) fails: a read-receipt frame decodes and nothing is sent
    to the hub; a chat frame decodes and the request carries the payload,
    not the envelope. *)
Lemma pump_does_not_dispatch_the_envelope :
  (decodeEnvelope receipt_frame
   = Some {| Type_ := EventTypeReadReceipt; Timestamp := zeroTime;
             Payload := object1 "id" "m1" |} ∧
   processMessage decodeEnvelope encodeEnvelope noon client_A receipt_frame = []) ∧
  (decodeEnvelope hi_frame
   = Some {| Type_ := EventTypeMessage; Timestamp := zeroTime; Payload := hi_payload |} ∧
   processMessage decodeEnvelope encodeEnvelope noon client_A hi_frame
   = [HubBroadcast {| ClientID := "A"; Message := hi_payload |}] ∧
   hi_payload ≠ hi_frame).
Proof. split_and!; by vm_compute. Qed.

(** C7 (as amended).  With A and B registered, A's inbound pump processing a
    frame that decodes into a "message" envelope makes the hub append the
    payload of the frame, byte for byte, to B's outbound queue, once, and
    nothing to A's. *)
Theorem chat_payload_reaches_the_other json_Unmarshal json_Marshal now
    w a b order data ts payload :
  json_Unmarshal data
  = Some {| Type_ := EventTypeMessage; Timestamp := ts; Payload := payload |} →
  clients (hub w) !! ID a = Some a →
  clients (hub w) !! ID b = Some b →
  ID a ≠ ID b →
  queues_distinct w →
  room_for 1 (ID a) w →
  range_order (clients (hub w)) order →
  ∃ w', perform_all order w (processMessage json_Unmarshal json_Marshal now a data)
        = Returns w' ∧
    hub w' = hub w ∧
    queue w' b = queue w b ++ [payload] ∧
    queue w' a = queue w a.
Proof.
  intros Hdecode Ha Hb Hne Hdistinct Hroom Horder.
  rewrite (processMessage_chat _ _ _ _ _ _ Hdecode) by done.
  unfold handleChatMessage. simpl.
  destruct (broadcastMessage_ok w {| ClientID := ID a; Message := payload |} order)
    as (w' & Hrun & Hhub & Hchans); [done..|].
  exists w'. rewrite Hrun. simpl in *. split_and!; [done..| |].
  - apply queue_push_list.
    + destruct (Hroom (ID b) b Hb) as (ch & -> & _); [done|by eexists].
    + rewrite (Hchans (ID b) b Hb), decide_False by done.
      by destruct (chans w !! Send b) as [[]|].
  - apply queue_same. by rewrite (Hchans (ID a) a Ha), decide_True.
Qed.

Lemma world_AB_clients id c :
  clients (hub world_AB) !! id = Some c ↔ (id, c) ∈ order_AB.
Proof.
  rewrite <- elem_of_map_to_list.
  by replace (map_to_list (clients (hub world_AB))) with order_AB by by vm_compute.
Qed.

Lemma world_AB_range_order : range_order (clients (hub world_AB)) order_AB.
Proof. unfold range_order. by vm_compute. Qed.

Lemma world_AB_distinct : queues_distinct world_AB.
Proof.
  intros id1 id2 c1 c2 H1%world_AB_clients H2%world_AB_clients Heq.
  unfold order_AB in *. entry_cases H1; entry_cases H2; done.
Qed.

Lemma world_AB_room origin : room_for 1 origin world_AB.
Proof.
  intros id c Hc%world_AB_clients _. exists (make_chan sendBuffer).
  unfold order_AB in *.
  entry_cases Hc; (split_and!; [by vm_compute|done|simpl; unfold sendBuffer; lia]).
Qed.

Lemma chat_payload_reaches_the_other_witness :
  decodeEnvelope hi_frame
  = Some {| Type_ := EventTypeMessage; Timestamp := zeroTime; Payload := hi_payload |} ∧
  clients (hub world_AB) !! ID client_A = Some client_A ∧
  clients (hub world_AB) !! ID client_B = Some client_B ∧
  ID client_A ≠ ID client_B ∧
  ∃ w', perform_all order_AB world_AB
          (processMessage decodeEnvelope encodeEnvelope noon client_A hi_frame)
        = Returns w' ∧
    queue w' client_B = [hi_payload] ∧ queue w' client_A = [].
Proof.
  assert (decodeEnvelope hi_frame
          = Some {| Type_ := EventTypeMessage; Timestamp := zeroTime;
                    Payload := hi_payload |}) as H1 by by vm_compute.
  assert (clients (hub world_AB) !! ID client_A = Some client_A) as H2 by by vm_compute.
  assert (clients (hub world_AB) !! ID client_B = Some client_B) as H3 by by vm_compute.
  assert (ID client_A ≠ ID client_B) as H4 by by vm_compute.
  split; [exact H1|]. split; [exact H2|]. split; [exact H3|]. split; [exact H4|].
  destruct (chat_payload_reaches_the_other decodeEnvelope encodeEnvelope noon
              world_AB client_A client_B order_AB hi_frame zeroTime hi_payload
              H1 H2 H3 H4 world_AB_distinct (world_AB_room _) world_AB_range_order)
    as (w' & Hrun & _ & HB & HA).
  exists w'. split; [exact Hrun|]. split.
  - etrans; [exact HB|]. by vm_compute.
  - etrans; [exact HA|]. by vm_compute.
Defined.

(** C7 (as stated) fails: what B's queue receives is the payload of the
    frame, not the frame. *)
Lemma chat_envelope_is_not_forwarded :
  range_order (clients (hub world_AB)) order_AB ∧
  queue (world_of (perform_all order_AB world_AB
           (processMessage decodeEnvelope encodeEnvelope noon client_A hi_frame)))
        client_B
  = [hi_payload] ∧
  [hi_payload] ≠ [hi_frame].
Proof. split_and!; [apply world_AB_range_order|by vm_compute..]. Qed.

(** ** What the handler establishes

    The hypotheses on the channels used above hold of the hubs the handler
    builds: a connection made by [NewClient] comes with a channel of its
    own, open and empty. *)
(** X18.  The handler's [NewClient] and registration keep the channels in
    order: if every registered connection has a channel in the store and no
    two share one, the same holds with the new connection registered, and
    the new connection's channel is a new, open, empty channel of capacity
    256. *)
Lemma connect_channels id userID w :
  queues_allocated w → queues_distinct w →
  queues_allocated (connect id userID w).2 ∧
  queues_distinct (connect id userID w).2 ∧
  chans (connect id userID w).2 !! Send (connect id userID w).1
  = Some (make_chan sendBuffer).
Proof.
  intros Halloc Hdistinct. unfold connect, NewClient. simpl.
  set (r := fresh (dom (chans w))).
  assert (chans w !! r = None) as Hfresh by apply not_elem_of_dom, is_fresh.
  assert (∀ id0 c0, clients (hub w) !! id0 = Some c0 → Send c0 ≠ r) as Hold.
  { intros id0 c0 Hc0 Heq. destruct (Halloc id0 c0 Hc0) as [ch Hch]. congruence. }
  split_and!.
  - intros id0 c0. simpl. destruct (decide (id = id0)) as [<-|Hne].
    + rewrite lookup_insert_eq. intros [= <-]. simpl.
      rewrite lookup_insert_eq. by eexists.
    + rewrite lookup_insert_ne by done. intros Hc0.
      rewrite lookup_insert_ne by (intros Heq; by eapply Hold).
      by eapply Halloc.
  - intros id1 id2 c1 c2. simpl.
    destruct (decide (id = id1)) as [<-|Hne1], (decide (id = id2)) as [<-|Hne2];
      rewrite ?lookup_insert_eq, ?lookup_insert_ne by done; try done.
    + intros [= <-] Hc2 Heq. simpl in Heq. exfalso. by eapply Hold.
    + intros Hc1 [= <-] Heq. simpl in Heq. exfalso. by eapply Hold.
    + apply Hdistinct.
  - apply lookup_insert_eq.
Qed.

Lemma world0_channels : queues_allocated world0 ∧ queues_distinct world0.
Proof. split; intros ? *; simpl; by rewrite lookup_empty. Qed.

(** * Further properties of the hub *)

Lemma chan_try_send_cases r data cs :
  (∃ ch, cs !! r = Some ch ∧ closed ch = false ∧ length (buf ch) < cap ch ∧
         chan_try_send r data cs = Sent (<[r := push data ch]> cs)) ∨
  chan_try_send r data cs = SendPanics ∧
    (∃ ch, cs !! r = Some ch ∧ closed ch = true) ∨
  chan_try_send r data cs = NotReady ∧
    (cs !! r = None ∨ ∃ ch, cs !! r = Some ch ∧ closed ch = false ∧ cap ch ≤ length (buf ch)).
Proof.
  unfold chan_try_send. destruct (cs !! r) as [ch|] eqn:Hch; [|by right; right; split; [|left]].
  destruct (closed ch) eqn:Hclosed; [right; left; split; [done|by exists ch]|].
  case_decide.
  - left. by exists ch.
  - right. right. split; [done|]. right. exists ch. split_and!; [done..|lia].
Qed.

Lemma chan_close_cases r cs :
  (∃ ch, cs !! r = Some ch ∧ closed ch = false ∧ chan_close r cs = inl (<[r := shut ch]> cs)) ∨
  (∃ p, chan_close r cs = inr p).
Proof.
  unfold chan_close. destruct (cs !! r) as [ch|]; [|right; by eexists].
  destruct (closed ch) eqn:Hclosed; [right; by eexists|].
  left. by exists ch.
Qed.

(** However the loop of [broadcastMessage] ends, a channel holds what it
    held, followed by copies of the message. *)
Lemma broadcast_range_appends b todo : ∀ w r ch,
  chans w !! r = Some ch →
  ∃ ch' k, chans (world_of (broadcast_range b todo w)) !! r = Some ch' ∧
    buf ch' = buf ch ++ replicate k (Message b) ∧ cap ch' = cap ch.
Proof.
  induction todo as [|[id c] todo IH]; intros w r ch Hch; simpl.
  - exists ch, 0. simpl. by rewrite app_nil_r.
  - case_decide; [|by apply IH].
    destruct (chan_try_send_cases (Send c) (Message b) (chans w))
      as [(ch0 & Hch0 & _ & _ & ->)|[[-> _]|[-> _]]].
    + destruct (decide (r = Send c)) as [->|Hne].
      * assert (ch0 = ch) as -> by congruence.
        destruct (IH {| hub := hub w; chans := <[Send c := push (Message b) ch]> (chans w) |}
                    (Send c) (push (Message b) ch)) as (ch' & k & Hch' & Hbuf & Hcap).
        { apply lookup_insert_eq. }
        exists ch', (S k). split_and!; [done| |by rewrite Hcap].
        rewrite Hbuf. simpl. by rewrite <- app_assoc.
      * apply IH. simpl. by rewrite lookup_insert_ne.
    + exists ch, 0. simpl. by rewrite app_nil_r.
    + destruct (chan_close_cases (Send c) (chans w)) as [(ch0 & Hch0 & _ & ->)|[p ->]]; simpl.
      * destruct (decide (r = Send c)) as [->|Hne].
        -- rewrite lookup_insert_eq. exists (shut ch0), 0. simpl.
           rewrite app_nil_r. split_and!; congruence.
        -- rewrite lookup_insert_ne by done. exists ch, 0. simpl. by rewrite app_nil_r.
      * exists ch, 0. simpl. by rewrite app_nil_r.
Qed.

(** X1.  A broadcast request, however it ends, leaves the membership maps as
    they were and only appends: every channel keeps its capacity and holds
    what it held, in the same order, followed by copies of the message. *)
Theorem broadcast_only_appends w b order :
  hub (world_of (Run_step w (Bcast b order))) = hub w ∧
  ∀ r ch, chans w !! r = Some ch →
    ∃ ch' k, chans (world_of (Run_step w (Bcast b order))) !! r = Some ch' ∧
      buf ch' = buf ch ++ replicate k (Message b) ∧ cap ch' = cap ch.
Proof.
  split; [apply broadcast_range_hub|]. intros r ch. apply broadcast_range_appends.
Qed.

(** When the loop of [broadcastMessage] visits each channel once and runs to
    its end, every channel it sent on was open with a free slot. *)
Lemma broadcast_range_returns_room b todo : ∀ w,
  NoDup (recipients (ClientID b) todo) →
  returns (broadcast_range b todo w) →
  ∀ r, r ∈ recipients (ClientID b) todo →
    ∃ ch, chans w !! r = Some ch ∧ closed ch = false ∧ length (buf ch) < cap ch.
Proof.
  induction todo as [|[id c] todo IH]; intros w Hnodup Hreturns r Hr.
  - by apply elem_of_nil in Hr.
  - simpl in Hreturns. unfold recipients in *. rewrite filter_cons in *. simpl in *.
    destruct (decide (id ≠ ClientID b)) as [Hne|Heq]; [|by eapply IH].
    rewrite fmap_cons in *. simpl in *.
    apply NoDup_cons in Hnodup as [Hfirst Hnodup].
    destruct (chan_try_send_cases (Send c) (Message b) (chans w))
      as [(ch0 & Hch0 & Hopen & Hroom & Hsent)|[[Hp _]|[Hn _]]].
    + rewrite Hsent in Hreturns.
      apply elem_of_cons in Hr as [->|Hr]; [by exists ch0|].
      destruct (IH _ Hnodup Hreturns r Hr) as (ch & Hch & ?). simpl in Hch.
      rewrite lookup_insert_ne in Hch by (by intros <-). by exists ch.
    + by rewrite Hp in Hreturns.
    + rewrite Hn in Hreturns. by destruct (chan_close _ _).
Qed.

(** X3.  In a hub whose registered connections have channels of their own, a
    broadcast request is handled to its end exactly when every registered
    connection other than the origin has an open channel with a free slot. *)
Theorem broadcast_returns_iff_room w b order :
  range_order (clients (hub w)) order →
  queues_distinct w →
  returns (Run_step w (Bcast b order)) ↔ room_for 1 (ClientID b) w.
Proof.
  intros Horder Hdistinct. split.
  - intros Hreturns id c Hc Hne.
    destruct (broadcast_range_returns_room b order w) with (r := Send c)
      as (ch & Hch & Hopen & Hroom); [by eapply NoDup_recipients|done| |].
    { apply (elem_of_recipients _ _ _ _ Horder). by exists id, c. }
    exists ch. split_and!; [done..|lia].
  - intros Hroom.
    destruct (broadcastMessage_ok w b order) as (w' & Hrun & _); [done..|].
    simpl. by rewrite Hrun.
Qed.

Lemma broadcast_returns_iff_room_witness :
  range_order (clients (hub world_three)) order_three ∧
  queues_distinct world_three ∧
  (returns (Run_step world_three (Bcast late order_three))
   ↔ room_for 1 (ClientID late) world_three).
Proof.
  split; [exact world_three_range_order|]. split; [exact world_three_distinct|].
  exact (broadcast_returns_iff_room world_three late order_three
           world_three_range_order world_three_distinct).
Defined.

(** X4.  When no queue overflows, the order in which [range] visits the
    clients does not matter: any two orders leave the same state. *)
Theorem broadcast_order_irrelevant w b order1 order2 :
  range_order (clients (hub w)) order1 →
  range_order (clients (hub w)) order2 →
  queues_distinct w →
  room_for 1 (ClientID b) w →
  Run_step w (Bcast b order1) = Run_step w (Bcast b order2) ∧
  returns (Run_step w (Bcast b order1)).
Proof.
  intros Horder1 Horder2 Hdistinct Hroom. simpl. unfold broadcastMessage.
  assert (∀ order, range_order (clients (hub w)) order →
    ∃ w', broadcast_range b order w = Returns w' ∧ hub w' = hub w ∧
      ∀ r, chans w' !! r =
           if decide (r ∈ recipients (ClientID b) order)
           then push (Message b) <$> chans w !! r else chans w !! r) as Hany.
  { intros order Horder. apply broadcast_range_ok; [by eapply NoDup_recipients|].
    intros r (id & c & Hc & Hne & <-)%(elem_of_recipients _ _ _ _ Horder).
    destruct (Hroom id c Hc Hne) as (ch & ? & ? & ?). exists ch. split_and!; [done..|lia]. }
  destruct (Hany order1 Horder1) as (w1 & -> & Hhub1 & Hchans1).
  destruct (Hany order2 Horder2) as (w2 & -> & Hhub2 & Hchans2).
  split; [|done]. f_equal. destruct w1 as [h1 cs1], w2 as [h2 cs2]. simpl in *.
  f_equal; [congruence|]. apply map_eq. intros r. rewrite Hchans1, Hchans2.
  destruct (decide (r ∈ recipients (ClientID b) order1)) as [H1|H1].
  - rewrite decide_True; [done|].
    apply (elem_of_recipients _ _ _ _ Horder2).
    by apply (elem_of_recipients _ _ _ _ Horder1).
  - rewrite decide_False; [done|]. intros H2. apply H1.
    apply (elem_of_recipients _ _ _ _ Horder1).
    by apply (elem_of_recipients _ _ _ _ Horder2).
Qed.

Lemma broadcast_order_irrelevant_witness :
  range_order (clients (hub world_three)) order_three ∧
  range_order (clients (hub world_three)) (reverse order_three) ∧
  queues_distinct world_three ∧
  room_for 1 (ClientID late) world_three ∧
  Run_step world_three (Bcast late order_three)
  = Run_step world_three (Bcast late (reverse order_three)).
Proof.
  assert (range_order (clients (hub world_three)) (reverse order_three)) as H2.
  { unfold range_order. transitivity order_three.
    - apply reverse_Permutation.
    - apply world_three_range_order. }
  assert (room_for 1 (ClientID late) world_three) as H4 by (apply world_three_room; lia).
  split; [exact world_three_range_order|]. split; [exact H2|].
  split; [exact world_three_distinct|]. split; [exact H4|].
  exact (proj1 (broadcast_order_irrelevant world_three late order_three (reverse order_three)
                  world_three_range_order H2 world_three_distinct H4)).
Defined.

(** The overflow path in general. *)
Lemma broadcast_range_overflow b todo : ∀ w id c ch,
  (id, c) ∈ todo → id ≠ ClientID b →
  chans w !! Send c = Some ch → closed ch = false → cap ch ≤ length (buf ch) →
  (∀ id' c', (id', c') ∈ todo → id' ≠ ClientID b →
     ∃ ch', chans w !! Send c' = Some ch' ∧ closed ch' = false) →
  ∃ w' id' c' ch',
    broadcast_range b todo w = Blocks w' (OnHubUnregister c') ∧
    hub w' = hub w ∧
    (id', c') ∈ todo ∧ id' ≠ ClientID b ∧
    chans w' !! Send c' = Some ch' ∧ closed ch' = true ∧ cap ch' ≤ length (buf ch') ∧
    (Send c ≠ Send c' → chans w' !! Send c = Some ch).
Proof.
  induction todo as [|[id0 c0] todo IH]; intros w id c ch Hin Hne Hch Hopen Hfull Hall.
  - by apply elem_of_nil in Hin.
  - simpl. destruct (decide (id0 ≠ ClientID b)) as [Hne0|Heq0].
    + destruct (chan_try_send_cases (Send c0) (Message b) (chans w))
        as [(ch0 & Hch0 & Hopen0 & Hroom0 & ->)|[[_ (ch0 & Hch0 & Hclosed0)]|[-> Hn]]].
      * assert (Send c ≠ Send c0) as Hother.
        { intros Heq. rewrite Heq in Hch. assert (ch0 = ch) as -> by congruence. lia. }
        apply elem_of_cons in Hin as [[= <- <-]|Hin]; [done|].
        destruct (IH {| hub := hub w; chans := <[Send c0 := push (Message b) ch0]> (chans w) |}
                    id c ch Hin Hne)
          as (w' & id' & c' & ch' & Hrun & Hhub & Hin' & Hne' & Hch' & Hcl' & Hfull' & Hkeep);
          [by simpl; rewrite lookup_insert_ne|done..| |].
        { intros id1 c1 Hin1 Hne1. simpl.
          destruct (decide (Send c1 = Send c0)) as [->|Hne10].
          - rewrite lookup_insert_eq. exists (push (Message b) ch0). by split.
          - rewrite lookup_insert_ne by done. apply (Hall id1 c1); [by right|done]. }
        exists w', id', c', ch'. split_and!; [done|done|by right|done..].
      * destruct (Hall id0 c0) as (ch1 & Hch1 & Hopen1); [by left|done|]. congruence.
      * destruct (Hall id0 c0) as (ch0 & Hch0 & Hopen0); [by left|done|].
        destruct Hn as [Hnil|(ch1 & Hch1 & _ & Hfull1)]; [congruence|].
        assert (ch1 = ch0) as -> by congruence.
        unfold chan_close. rewrite Hch0, Hopen0.
        exists {| hub := hub w; chans := <[Send c0 := shut ch0]> (chans w) |}, id0, c0,
               (shut ch0).
        simpl. split_and!; [done|done|by left|done|by rewrite lookup_insert_eq|done..|].
        intros Hother. by rewrite lookup_insert_ne.
    + apply elem_of_cons in Hin as [[= <- <-]|Hin]; [done|].
      destruct (IH w id c ch Hin Hne Hch Hopen Hfull)
        as (w' & id' & c' & ch' & Hrun & Hhub & Hin' & Hne' & Hch' & Hcl' & Hfull' & Hkeep).
      { intros id1 c1 Hin1. apply Hall. by right. }
      exists w', id', c', ch'. split_and!; [done|done|by right|done..].
Qed.

(** X5.  A full queue stops the hub, in general: when every registered
    connection other than the origin has an open channel and one of them has
    no free slot, the broadcast request closes the channel of such a
    connection and then waits on the hub's own [Unregister] channel.  That
    connection is still registered, and [Run] handles none of the requests
    that follow. *)
Theorem broadcast_overflow_blocks w b order id c ch :
  range_order (clients (hub w)) order →
  clients (hub w) !! id = Some c → id ≠ ClientID b →
  chans w !! Send c = Some ch → closed ch = false → cap ch ≤ length (buf ch) →
  (∀ id' c', clients (hub w) !! id' = Some c' → id' ≠ ClientID b →
     ∃ ch', chans w !! Send c' = Some ch' ∧ closed ch' = false) →
  ∃ w' id' c' ch',
    (∀ rs, Run w (Bcast b order :: rs) = Blocks w' (OnHubUnregister c')) ∧
    hub w' = hub w ∧
    clients (hub w') !! id' = Some c' ∧ id' ≠ ClientID b ∧
    chans w' !! Send c' = Some ch' ∧ closed ch' = true ∧ cap ch' ≤ length (buf ch').
Proof.
  intros Horder Hc Hne Hch Hopen Hfull Hall.
  destruct (broadcast_range_overflow b order w id c ch)
    as (w' & id' & c' & ch' & Hrun & Hhub & Hin' & Hne' & Hch' & Hcl' & Hfull' & _);
    [|done..| |].
  { rewrite Horder. by apply elem_of_map_to_list. }
  { intros id1 c1 Hin1. apply Hall. apply elem_of_map_to_list. by rewrite <- Horder. }
  exists w', id', c', ch'. split_and!; [|done| |done..].
  - intros rs. simpl. unfold broadcastMessage. by rewrite Hrun.
  - rewrite Hhub. apply elem_of_map_to_list. by rewrite <- Horder.
Qed.

Lemma world_slow_clients id c :
  clients (hub world_slow) !! id = Some c ↔ (id, c) ∈ order_three.
Proof.
  rewrite <- elem_of_map_to_list.
  by replace (map_to_list (clients (hub world_slow))) with order_three by by vm_compute.
Qed.

Lemma world_slow_open id c :
  clients (hub world_slow) !! id = Some c →
  ∃ ch, chans world_slow !! Send c = Some ch ∧ closed ch = false.
Proof.
  intros Hc%world_slow_clients. unfold order_three in Hc.
  entry_cases Hc;
    [exists (make_chan sendBuffer)|exists flooded_chan|exists (make_chan sendBuffer)];
    split; by vm_compute.
Qed.

Lemma broadcast_overflow_blocks_witness :
  range_order (clients (hub world_slow)) order_slow ∧
  clients (hub world_slow) !! "laptop" = Some laptop ∧
  chans world_slow !! Send laptop = Some flooded_chan ∧
  ∃ w' id' c' ch',
    (∀ rs, Run world_slow (Bcast late order_slow :: rs) = Blocks w' (OnHubUnregister c')) ∧
    clients (hub w') !! id' = Some c' ∧
    chans w' !! Send c' = Some ch' ∧ closed ch' = true.
Proof.
  assert (clients (hub world_slow) !! "laptop" = Some laptop) as H2 by by vm_compute.
  assert ("laptop" ≠ ClientID late) as H3 by by vm_compute.
  assert (chans world_slow !! Send laptop = Some flooded_chan) as H4 by by vm_compute.
  assert (cap flooded_chan ≤ length (buf flooded_chan)) as H6.
  { unfold flooded_chan. cbn [cap buf]. by rewrite length_replicate. }
  assert (∀ id' c', clients (hub world_slow) !! id' = Some c' → id' ≠ ClientID late →
            ∃ ch', chans world_slow !! Send c' = Some ch' ∧ closed ch' = false) as H7.
  { intros id' c' Hc' _. by apply (world_slow_open id'). }
  split; [exact world_slow_range_order|]. split; [exact H2|]. split; [exact H4|].
  destruct (broadcast_overflow_blocks world_slow late order_slow "laptop" laptop flooded_chan
              world_slow_range_order H2 H3 H4 eq_refl H6 H7)
    as (w' & id' & c' & ch' & Hrun & _ & Hc' & _ & Hch' & Hcl' & _).
  exists w', id', c', ch'. split_and!; assumption.
Defined.

(** X6.  Register followed by Unregister is a round trip on the membership
    maps: for a connection whose ID and user are new to the hub and whose
    channel is open, the two requests leave both maps as they were and the
    channel closed, its content kept. *)
Theorem register_unregister_round_trip w c ch :
  clients (hub w) !! ID c = None →
  userClients (hub w) !! UserID c = None →
  chans w !! Send c = Some ch → closed ch = false →
  Run w [Register c; Unregister c]
  = Returns {| hub := hub w; chans := <[Send c := shut ch]> (chans w) |}.
Proof.
  intros Hid Huser Hch Hopen. simpl. unfold unregisterClient, chan_close. simpl.
  rewrite lookup_insert_eq, Hch, Hopen. simpl. unfold notifyUserLeave.
  rewrite !delete_insert_id by done. by destruct w as [[] ?].
Qed.

Lemma register_unregister_round_trip_witness :
  Run world_devices [Register phone; Unregister phone]
  = Returns {| hub := hub world_devices;
               chans := <[Send phone := shut (make_chan sendBuffer)]> (chans world_devices) |}.
Proof.
  apply (register_unregister_round_trip world_devices phone (make_chan sendBuffer));
    by vm_compute.
Defined.

(** X7.  A channel is closed once and for all: registering again a
    connection that was unregistered and unregistering it a second time
    panics with a close of a closed channel, after the maps were updated. *)
Theorem reregistered_connection_panics w c ch :
  chans w !! Send c = Some ch → closed ch = false →
  ∃ w', Run w [Register c; Unregister c; Register c; Unregister c]
        = Panics w' CloseOfClosedChannel ∧
        clients (hub w') !! ID c = None ∧
        chans w' !! Send c = Some (shut ch).
Proof.
  intros Hch Hopen. simpl. unfold unregisterClient at 1. simpl.
  rewrite lookup_insert_eq. unfold chan_close at 1. simpl. rewrite Hch, Hopen. simpl.
  unfold unregisterClient, notifyUserLeave, registerClient, notifyUserJoin. simpl.
  rewrite lookup_insert_eq. unfold chan_close. simpl. rewrite lookup_insert_eq. simpl.
  eexists. split; [done|]. simpl. by rewrite lookup_delete_eq, lookup_insert_eq.
Qed.

Lemma reregistered_connection_panics_witness :
  ∃ w', Run world_devices [Register phone; Unregister phone; Register phone; Unregister phone]
        = Panics w' CloseOfClosedChannel.
Proof.
  destruct (reregistered_connection_panics world_devices phone (make_chan sendBuffer))
    as (w' & Hrun & _); [by vm_compute..|].
  by exists w'.
Defined.

Lemma Run_registers cs : ∀ w,
  Run w (Register <$> cs) = Returns (foldl registerClient w cs).
Proof. induction cs as [|c cs IH]; intros w; simpl; [done|apply IH]. Qed.

(** X8.  The latest registration wins: after the connections of a list have
    registered in order, a user's index entry holds the ID of the last
    connection of that user in the list, and a connection ID maps to the
    last connection registered under it; users and IDs the list does not
    mention keep their entries. *)
Theorem latest_registration_wins w cs :
  Run w (Register <$> cs) = Returns (foldl registerClient w cs) ∧
  (∀ u, userClients (hub (foldl registerClient w cs)) !! u =
        match last_with (λ c, UserID c = u) cs with
        | Some c => Some (ID c)
        | None => userClients (hub w) !! u
        end) ∧
  (∀ id, clients (hub (foldl registerClient w cs)) !! id =
         match last_with (λ c, ID c = id) cs with
         | Some c => Some c
         | None => clients (hub w) !! id
         end).
Proof.
  split; [apply Run_registers|]. unfold last_with.
  induction cs as [|c cs [IHu IHc]] using rev_ind; [done|].
  rewrite foldl_snoc. split.
  - intros u. rewrite filter_app, last_app, filter_cons, filter_nil. simpl.
    destruct (decide (UserID c = u)) as [<-|Hne]; simpl.
    + apply lookup_insert_eq.
    + rewrite lookup_insert_ne by done. apply IHu.
  - intros id. rewrite filter_app, last_app, filter_cons, filter_nil. simpl.
    destruct (decide (ID c = id)) as [<-|Hne]; simpl.
    + apply lookup_insert_eq.
    + rewrite lookup_insert_ne by done. apply IHc.
Qed.

(** * Further properties of the inbound pump *)

Lemma processMessage_rejected json_Unmarshal json_Marshal now c data errMsg :
  rejected json_Unmarshal data = Some errMsg →
  processMessage json_Unmarshal json_Marshal now c data
  = sendError json_Marshal now c errMsg.
Proof.
  unfold rejected, processMessage. destruct (json_Unmarshal data) as [msg|].
  - case_decide as Htag; [done|]. intros [= <-].
    rewrite !decide_False; [done|tauto..].
  - by intros [= <-].
Qed.

(** X10.  What the inbound pump does with a frame is its own: it performs at
    most one send; a request to the hub carries the connection's own ID and
    the payload of a frame tagged "message" or "typing"; a send on a
    [Send] channel is on the connection's own channel and carries the encoded
    error envelope for a frame that did not decode or has an unknown type. *)
Theorem pump_effects_are_its_own json_Unmarshal json_Marshal now c data :
  length (processMessage json_Unmarshal json_Marshal now c data) ≤ 1 ∧
  ∀ e, e ∈ processMessage json_Unmarshal json_Marshal now c data →
    match e with
    | HubBroadcast b =>
        ClientID b = ID c ∧ forwarded json_Unmarshal data = Some (Message b)
    | ClientSend r reply =>
        r = Send c ∧
        ∃ errMsg, rejected json_Unmarshal data = Some errMsg ∧
                  json_Marshal (errorMessage now errMsg) = Some reply
    end.
Proof.
  unfold processMessage, forwarded, rejected, sendError, errorMessage,
    handleChatMessage, handleTypingEvent, handleReadReceipt.
  destruct (json_Unmarshal data) as [msg|].
  - destruct (decide (Type_ msg = EventTypeMessage)) as [Hm|Hm].
    { split; [simpl; lia|]. intros e ->%list_elem_of_singleton. simpl.
      rewrite decide_True by by left. done. }
    destruct (decide (Type_ msg = EventTypeTyping)) as [Ht|Ht].
    { split; [simpl; lia|]. intros e ->%list_elem_of_singleton. simpl.
      rewrite decide_True by by right. done. }
    destruct (decide (Type_ msg = EventTypeReadReceipt)) as [Hr|Hr].
    { split; [simpl; lia|]. by intros e ?%elem_of_nil. }
    rewrite (decide_False (P := _ ∨ _ ∨ _)) by tauto.
    destruct (json_Marshal _) as [reply|] eqn:Hreply.
    + split; [simpl; lia|]. intros e ->%list_elem_of_singleton. split; [done|].
      by eexists.
    + split; [simpl; lia|]. by intros e ?%elem_of_nil.
  - destruct (json_Marshal _) as [reply|] eqn:Hreply.
    + split; [simpl; lia|]. intros e ->%list_elem_of_singleton. split; [done|].
      by eexists.
    + split; [simpl; lia|]. by intros e ?%elem_of_nil.
Qed.

Lemma error_reply_perform json_Unmarshal json_Marshal now order w c data errMsg reply ch :
  rejected json_Unmarshal data = Some errMsg →
  json_Marshal (errorMessage now errMsg) = Some reply →
  chans w !! Send c = Some ch →
  perform_all order w (processMessage json_Unmarshal json_Marshal now c data)
  = if closed ch then Panics w SendOnClosedChannel
    else if decide (length (buf ch) < cap ch)
         then Returns (with_chans w (<[Send c := push reply ch]> (chans w)))
         else Blocks w (OnSend (Send c)).
Proof.
  intros Hrejected Hreply Hch.
  rewrite (processMessage_rejected _ _ _ _ _ _ Hrejected).
  unfold sendError. fold (errorMessage now errMsg). rewrite Hreply. simpl.
  unfold chan_send, chan_try_send. rewrite Hch.
  destruct (closed ch); [done|]. by case_decide.
Qed.

(** X11.  A frame that does not decode, or decodes into an envelope of an
    unknown type, is answered on the sender's own queue and nowhere else:
    with a free slot the encoded error envelope is appended to that queue
    and nothing else changes; with a full queue the pump waits; with a closed
    queue the pump panics. *)
Theorem error_reply json_Unmarshal json_Marshal now order w c data errMsg reply ch :
  rejected json_Unmarshal data = Some errMsg →
  json_Marshal (errorMessage now errMsg) = Some reply →
  chans w !! Send c = Some ch →
  perform_all order w (processMessage json_Unmarshal json_Marshal now c data)
  = if closed ch then Panics w SendOnClosedChannel
    else if decide (length (buf ch) < cap ch)
         then Returns (with_chans w (<[Send c := push reply ch]> (chans w)))
         else Blocks w (OnSend (Send c)).
Proof. apply error_reply_perform. Qed.

Lemma error_reply_witness :
  rejected decodeEnvelope "hello" = Some "Invalid message format" ∧
  ∃ reply,
    encodeEnvelope (errorMessage noon "Invalid message format") = Some reply ∧
    perform_all order_AB world_AB
      (processMessage decodeEnvelope encodeEnvelope noon client_A "hello")
    = Returns (with_chans world_AB
                 (<[Send client_A := push reply (make_chan sendBuffer)]> (chans world_AB))).
Proof.
  assert (rejected decodeEnvelope "hello" = Some "Invalid message format") as H1
    by by vm_compute.
  split; [exact H1|]. eexists. split; [reflexivity|].
  exact (error_reply decodeEnvelope encodeEnvelope noon order_AB world_AB client_A
           "hello" _ _ (make_chan sendBuffer) H1 eq_refl eq_refl).
Defined.

(** X12.  The overflow path and the inbound pump together: once a broadcast
    has closed the channel of a connection whose queue was full, a frame of
    that connection that does not decode or has an unknown type makes its
    inbound pump send on the closed channel, which panics. *)
Theorem overflow_then_bad_frame_panics json_Unmarshal json_Marshal now
    w b order order' id c ch data errMsg reply :
  range_order (clients (hub w)) order →
  clients (hub w) !! id = Some c → id ≠ ClientID b →
  chans w !! Send c = Some ch → closed ch = false → cap ch ≤ length (buf ch) →
  (∀ id' c', clients (hub w) !! id' = Some c' → id' ≠ ClientID b →
     ∃ ch', chans w !! Send c' = Some ch' ∧ closed ch' = false) →
  rejected json_Unmarshal data = Some errMsg →
  json_Marshal (errorMessage now errMsg) = Some reply →
  ∃ w' c',
    Run_step w (Bcast b order) = Blocks w' (OnHubUnregister c') ∧
    perform_all order' w' (processMessage json_Unmarshal json_Marshal now c' data)
    = Panics w' SendOnClosedChannel.
Proof.
  intros Horder Hc Hne Hch Hopen Hfull Hall Hrejected Hreply.
  destruct (broadcast_range_overflow b order w id c ch)
    as (w' & id' & c' & ch' & Hrun & Hhub & Hin' & Hne' & Hch' & Hcl' & Hfull' & _);
    [|done..| |].
  { rewrite Horder. by apply elem_of_map_to_list. }
  { intros id1 c1 Hin1. apply Hall. apply elem_of_map_to_list. by rewrite <- Horder. }
  exists w', c'. split; [done|].
  rewrite (error_reply_perform _ _ _ _ _ _ _ _ _ ch' Hrejected Hreply Hch').
  by rewrite Hcl'.
Qed.

Lemma overflow_then_bad_frame_panics_witness :
  ∃ w' c',
    Run_step world_slow (Bcast late order_slow) = Blocks w' (OnHubUnregister c') ∧
    perform_all order_slow w'
      (processMessage decodeEnvelope encodeEnvelope noon c' "hello")
    = Panics w' SendOnClosedChannel.
Proof.
  assert (clients (hub world_slow) !! "laptop" = Some laptop) as H2 by by vm_compute.
  assert ("laptop" ≠ ClientID late) as H3 by by vm_compute.
  assert (chans world_slow !! Send laptop = Some flooded_chan) as H4 by by vm_compute.
  assert (cap flooded_chan ≤ length (buf flooded_chan)) as H6.
  { unfold flooded_chan. cbn [cap buf]. by rewrite length_replicate. }
  assert (∀ id' c', clients (hub world_slow) !! id' = Some c' → id' ≠ ClientID late →
            ∃ ch', chans world_slow !! Send c' = Some ch' ∧ closed ch' = false) as H7.
  { intros id' c' Hc' _. by apply (world_slow_open id'). }
  assert (rejected decodeEnvelope "hello" = Some "Invalid message format") as H8
    by by vm_compute.
  exact (overflow_then_bad_frame_panics decodeEnvelope encodeEnvelope noon
           world_slow late order_slow order_slow "laptop" laptop flooded_chan "hello" _ _
           world_slow_range_order H2 H3 H4 eq_refl H6 H7 H8 eq_refl).
Defined.

(** * The outbound pump *)

Lemma write_queued_all r : ∀ ms cs ch,
  cs !! r = Some ch → buf ch = ms →
  write_queued (length ms) r cs = (queued_writes ms, <[r := emptied ch]> cs, true).
Proof.
  induction ms as [|m ms IH]; intros cs ch Hch Hbuf; simpl.
  - assert (<[r := emptied ch]> cs = cs) as ->; [|done].
    apply insert_id. rewrite Hch. f_equal. destruct ch. simpl in *. by subst.
  - unfold chan_recv. rewrite Hch, Hbuf.
    rewrite (IH (<[r := pop ch]> cs) (pop ch)).
    + by rewrite insert_insert_eq.
    + apply lookup_insert_eq.
    + simpl. by rewrite Hbuf.
Qed.

Lemma written_bytes_queued ms tail :
  written_bytes (queued_writes ms ++ tail)
  = foldr (λ x acc, newline +:+ x +:+ acc) (written_bytes tail) ms.
Proof. induction ms as [|m ms IH]; simpl; [done|]. by rewrite IH. Qed.

Lemma written_bytes_drain ms : written_bytes (drain_calls ms) = join_lines ms.
Proof.
  destruct ms as [|m ms]; [done|].
  transitivity (m +:+ written_bytes (queued_writes ms ++ [WriterClose])); [done|].
  unfold join_lines. f_equal. apply written_bytes_queued.
Qed.

Lemma WritePump_select_send c ans w ch m ms :
  chans w !! Send c = Some ch → buf ch = m :: ms →
  NextWriter_ok ans = true →
  WritePump_select c CaseSend ans w
  = let w' := with_chans w (<[Send c := emptied ch]> (chans w)) in
    if WriterClose_ok ans then PumpStep Continues w' (drain_calls (m :: ms))
    else PumpStep Finishes w'
           ([SetWriteDeadline writeWait; NextWriter TextMessage; WriterWrite m]
            ++ queued_writes ms ++ [WriterClose; SocketClose]).
Proof.
  intros Hch Hbuf Hnext. unfold WritePump_select, chan_recv.
  rewrite Hch, Hbuf, Hnext. unfold chan_len. rewrite lookup_insert_eq.
  simpl. rewrite Hbuf. simpl.
  rewrite (write_queued_all (Send c) ms _ (pop ch)); [|apply lookup_insert_eq|by simpl; rewrite Hbuf].
  rewrite insert_insert_eq. simpl. by destruct (WriterClose_ok ans).
Qed.

(** X13.  One iteration of the write pump empties the queue into a single
    text message: with a queue holding [m] and then [ms], and a writer the
    socket grants and closes without error, the iteration writes [m] and then
    each queued message after a newline, in queue order; it leaves the queue
    empty and the other channels, the capacity and the closed flag as they
    were. *)
Theorem WritePump_drains_queue c ans w ch m ms :
  chans w !! Send c = Some ch → buf ch = m :: ms →
  NextWriter_ok ans = true → WriterClose_ok ans = true →
  WritePump_select c CaseSend ans w
  = PumpStep Continues (with_chans w (<[Send c := emptied ch]> (chans w)))
      ([SetWriteDeadline writeWait; NextWriter TextMessage; WriterWrite m]
       ++ queued_writes ms ++ [WriterClose]) ∧
  written_bytes (calls (WritePump_select c CaseSend ans w)) = join_lines (m :: ms).
Proof.
  intros Hch Hbuf Hnext Hclose.
  rewrite (WritePump_select_send c ans w ch m ms) by done. simpl. rewrite Hclose.
  split; [done|]. apply (written_bytes_drain (m :: ms)).
Qed.

Lemma WritePump_drains_queue_witness :
  chans world_queued !! Send laptop = Some two_queued ∧
  written_bytes (calls (WritePump_select laptop CaseSend all_ok world_queued))
  = "m1" +:+ newline +:+ "m2" ∧
  queue (after (WritePump_select laptop CaseSend all_ok world_queued)) laptop = [].
Proof.
  assert (chans world_queued !! Send laptop = Some two_queued) as H1 by by vm_compute.
  destruct (WritePump_drains_queue laptop all_ok world_queued two_queued "m1" ["m2"]
              H1 eq_refl eq_refl eq_refl) as [Hstep Hbytes].
  split; [exact H1|]. split; [exact Hbytes|].
  rewrite Hstep. unfold queue. simpl. by rewrite lookup_insert_eq.
Defined.

Lemma unregisterClient_open w c ch :
  clients (hub w) !! ID c = Some c → chans w !! Send c = Some ch → closed ch = false →
  unregisterClient w c
  = Returns {| hub := {| clients := delete (ID c) (clients (hub w));
                         userClients := delete (UserID c) (userClients (hub w)) |};
               chans := <[Send c := shut ch]> (chans w) |}.
Proof.
  intros Hc Hch Hopen. unfold unregisterClient, chan_close. by rewrite Hc, Hch, Hopen.
Qed.

Lemma WritePump_select_no_writer c ans w ch m ms :
  chans w !! Send c = Some ch → buf ch = m :: ms →
  NextWriter_ok ans = false →
  WritePump_select c CaseSend ans w
  = PumpStep Finishes (with_chans w (<[Send c := pop ch]> (chans w)))
      [SetWriteDeadline writeWait; NextWriter TextMessage; SocketClose].
Proof.
  intros Hch Hbuf Hnext. unfold WritePump_select, chan_recv.
  by rewrite Hch, Hbuf, Hnext.
Qed.

Lemma WritePump_select_closed c ans w ch :
  chans w !! Send c = Some ch → buf ch = [] → closed ch = true →
  WritePump_select c CaseSend ans w = PumpStep Finishes w close_calls.
Proof.
  intros Hch Hbuf Hclosed. unfold WritePump_select, chan_recv.
  by rewrite Hch, Hbuf, Hclosed.
Qed.

(** X14.  After the Unregister request of a registered connection with an
    open channel, the write pump returns within two iterations of its send
    case, whatever the socket answers, and leaves the hub alone.  If the
    socket grants a writer, everything queued is written as one text message
    and the queue is left empty, and the close message follows when the
    writer closed without error.  If the socket refuses the writer, nothing
    is written: the first queued message is lost and the others stay in the
    closed channel. *)
Theorem WritePump_after_unregister w c ch ans1 ans2 :
  clients (hub w) !! ID c = Some c → chans w !! Send c = Some ch → closed ch = false →
  ∃ w1, Run_step w (Unregister c) = Returns w1 ∧
    let s := WritePump c [(CaseSend, ans1); (CaseSend, ans2)] w1 in
    status s = Finishes ∧
    hub (after s) = hub w1 ∧
    match buf ch with
    | [] => calls s = close_calls ∧ queue (after s) c = []
    | m :: ms =>
        if NextWriter_ok ans1 then
          calls s =
            (if WriterClose_ok ans1 then drain_calls (m :: ms) ++ close_calls
             else [SetWriteDeadline writeWait; NextWriter TextMessage; WriterWrite m]
                  ++ queued_writes ms ++ [WriterClose; SocketClose]) ∧
          written_bytes (calls s) = join_lines (m :: ms) ∧
          queue (after s) c = []
        else
          calls s = [SetWriteDeadline writeWait; NextWriter TextMessage; SocketClose] ∧
          written_bytes (calls s) = EmptyString ∧
          queue (after s) c = ms
    end.
Proof.
  intros Hc Hch Hopen.
  exists {| hub := {| clients := delete (ID c) (clients (hub w));
                      userClients := delete (UserID c) (userClients (hub w)) |};
            chans := <[Send c := shut ch]> (chans w) |}.
  split; [by apply unregisterClient_open|].
  remember {| hub := _; chans := _ |} as w1 eqn:Hw1.
  assert (chans w1 !! Send c = Some (shut ch)) as Hch1.
  { subst w1. apply lookup_insert_eq. }
  clear Hw1. cbn zeta. destruct (buf ch) as [|m ms] eqn:Hbuf.
  - cbn [WritePump].
    rewrite (WritePump_select_closed c ans1 w1 (shut ch)) by done.
    cbn [status after calls]. split_and!; [done..|].
    unfold queue. rewrite Hch1. simpl. by rewrite Hbuf.
  - cbn [WritePump]. destruct (NextWriter_ok ans1) eqn:Hnext.
    + rewrite (WritePump_select_send c ans1 w1 (shut ch) m ms) by done.
      cbn zeta. destruct (WriterClose_ok ans1) eqn:Hclose.
      * cbn [status after calls].
        rewrite (WritePump_select_closed c ans2 _ (emptied (shut ch)));
          [|by apply lookup_insert_eq|done..].
        cbn [after_calls status after calls].
        split_and!; [done|done|done| |by unfold queue; simpl; rewrite lookup_insert_eq].
        transitivity (written_bytes (drain_calls (m :: ms))); [|apply written_bytes_drain].
        unfold written_bytes. by rewrite foldr_app.
      * cbn [status after calls].
        split_and!; [done|done|done| |by unfold queue; simpl; rewrite lookup_insert_eq].
        transitivity (m +:+ written_bytes (queued_writes ms ++ [WriterClose; SocketClose]));
          [done|].
        unfold join_lines. f_equal. apply written_bytes_queued.
    + rewrite (WritePump_select_no_writer c ans1 w1 (shut ch) m ms) by done.
      cbn [status after calls]. split_and!; [done..|].
      unfold queue. simpl. rewrite lookup_insert_eq. simpl. by rewrite Hbuf.
Qed.

Lemma WritePump_after_unregister_witness :
  clients (hub world_queued) !! ID laptop = Some laptop ∧
  chans world_queued !! Send laptop = Some two_queued ∧
  ∃ w1, Run_step world_queued (Unregister laptop) = Returns w1 ∧
    written_bytes (calls (WritePump laptop [(CaseSend, all_ok); (CaseSend, all_ok)] w1))
    = "m1" +:+ newline +:+ "m2" ∧
    written_bytes (calls (WritePump laptop [(CaseSend, no_writer); (CaseSend, all_ok)] w1))
    = EmptyString ∧
    queue (after (WritePump laptop [(CaseSend, no_writer); (CaseSend, all_ok)] w1)) laptop
    = ["m2"].
Proof.
  assert (clients (hub world_queued) !! ID laptop = Some laptop) as H1 by by vm_compute.
  assert (chans world_queued !! Send laptop = Some two_queued) as H2 by by vm_compute.
  split; [exact H1|]. split; [exact H2|].
  destruct (WritePump_after_unregister world_queued laptop two_queued all_ok all_ok
              H1 H2 eq_refl) as (w1 & Hrun & _ & _ & _ & Hbytes & _).
  destruct (WritePump_after_unregister world_queued laptop two_queued no_writer all_ok
              H1 H2 eq_refl) as (w1' & Hrun' & _ & _ & _ & Hnothing & Hqueue).
  assert (w1' = w1) as -> by congruence.
  exists w1. split; [exact Hrun|]. split; [exact Hbytes|]. split; [exact Hnothing|exact Hqueue].
Defined.

Lemma WritePump_select_after c case ans w :
  after (WritePump_select c case ans w)
  = match case, chans w !! Send c with
    | CaseSend, Some ch =>
        match buf ch with
        | [] => w
        | _ :: _ =>
            with_chans w (<[Send c := if NextWriter_ok ans then emptied ch else pop ch]>
                            (chans w))
        end
    | _, _ => w
    end.
Proof.
  destruct case; [|unfold WritePump_select; by destruct (WriteMessage_ok ans)].
  destruct (chans w !! Send c) as [ch|] eqn:Hch.
  - destruct (buf ch) as [|m ms] eqn:Hbuf.
    + unfold WritePump_select, chan_recv. rewrite Hch, Hbuf. by destruct (closed ch).
    + destruct (NextWriter_ok ans) eqn:Hnext.
      * rewrite (WritePump_select_send c ans w ch m ms) by done.
        cbn zeta. by destruct (WriterClose_ok ans).
      * unfold WritePump_select, chan_recv. by rewrite Hch, Hbuf, Hnext.
  - unfold WritePump_select, chan_recv. by rewrite Hch.
Qed.

Lemma WritePump_select_frame c case ans w :
  hub (after (WritePump_select c case ans w)) = hub w ∧
  (∀ r, r ≠ Send c → chans (after (WritePump_select c case ans w)) !! r = chans w !! r) ∧
  (∀ ch, chans w !! Send c = Some ch →
     ∃ ch' taken, chans (after (WritePump_select c case ans w)) !! Send c = Some ch' ∧
       buf ch = taken ++ buf ch' ∧ cap ch' = cap ch ∧ closed ch' = closed ch).
Proof.
  rewrite WritePump_select_after.
  destruct case; [|split_and!; [done..|]; intros ch Hch; by exists ch, []].
  destruct (chans w !! Send c) as [ch|] eqn:Hch; [|by split_and!].
  destruct (buf ch) as [|m ms] eqn:Hbuf.
  { split_and!; [done..|]. intros ch0 [= <-]. exists ch, []. by rewrite Hch. }
  simpl. split_and!; [done| |].
  - intros r Hr. by rewrite lookup_insert_ne.
  - intros ch0 [= <-]. rewrite lookup_insert_eq.
    destruct (NextWriter_ok ans).
    + exists (emptied ch), (m :: ms). simpl. by rewrite Hbuf, app_nil_r.
    + exists (pop ch), [m]. simpl. by rewrite Hbuf.
Qed.

(** X15.  The write pump only takes from its own queue: however long it
    runs and however it ends, the membership maps and every other channel
    are as they were, and its own channel has the same capacity and closed
    flag and holds a suffix of what it held. *)
Theorem WritePump_only_takes_from_its_queue c schedule : ∀ w,
  hub (after (WritePump c schedule w)) = hub w ∧
  (∀ r, r ≠ Send c → chans (after (WritePump c schedule w)) !! r = chans w !! r) ∧
  (∀ ch, chans w !! Send c = Some ch →
     ∃ ch' taken, chans (after (WritePump c schedule w)) !! Send c = Some ch' ∧
       buf ch = taken ++ buf ch' ∧ cap ch' = cap ch ∧ closed ch' = closed ch).
Proof.
  induction schedule as [|[case ans] schedule IH]; intros w.
  - simpl. split_and!; [done..|]. intros ch Hch. by exists ch, [].
  - cbn [WritePump].
    destruct (WritePump_select_frame c case ans w) as (Hhub1 & Hothers1 & Hown1).
    destruct (status (WritePump_select c case ans w)); [|done..].
    destruct (IH (after (WritePump_select c case ans w))) as (Hhub & Hothers & Hown).
    cbn [after_calls after]. split_and!.
    + congruence.
    + intros r Hr. by rewrite Hothers, Hothers1.
    + intros ch Hch. destruct (Hown1 ch Hch) as (ch1 & taken1 & Hch1 & Hbuf1 & Hcap1 & Hcl1).
      destruct (Hown ch1 Hch1) as (ch' & taken & Hch' & Hbuf & Hcap & Hcl).
      exists ch', (taken1 ++ taken). split_and!; [done| |congruence..].
      by rewrite Hbuf1, Hbuf, app_assoc.
Qed.

(** * The inbound pump as a whole *)

Lemma perform_reads_app order evs1 evs2 : ∀ w,
  perform_reads order w (evs1 ++ evs2)
  = perform_reads order w evs1 >>= (λ w', perform_reads order w' evs2).
Proof.
  induction evs1 as [|ev evs1 IH]; intros w; simpl; [done|].
  destruct (perform_read order w ev); simpl; [apply IH|done..].
Qed.

Lemma perform_reads_pumped order es : ∀ w,
  perform_reads order w (Pumped <$> es) = perform_all order w es.
Proof.
  induction es as [|e es IH]; intros w; simpl; [done|].
  destruct (perform order w e); simpl; [apply IH|done..].
Qed.

Lemma perform_all_broadcasts order origin ps : ∀ w,
  perform_all order w ((λ p, HubBroadcast {| ClientID := origin; Message := p |}) <$> ps)
  = Run w (broadcasts origin ((λ p, (p, order)) <$> ps)).
Proof.
  induction ps as [|p ps IH]; intros w; [done|].
  unfold broadcasts. rewrite !fmap_cons. simpl.
  destruct (broadcastMessage _ _ _); simpl; [apply IH|done..].
Qed.

Lemma recognized_effects json_Unmarshal json_Marshal now c reads :
  Forall (recognized json_Unmarshal) reads →
  mjoin (processMessage json_Unmarshal json_Marshal now c <$> reads)
  = (λ p, HubBroadcast {| ClientID := ID c; Message := p |})
      <$> omap (forwarded json_Unmarshal) reads.
Proof.
  induction 1 as [|data reads (msg & Hdecode & Htag) _ IH]; [done|].
  rewrite fmap_cons. simpl. rewrite IH.
  unfold processMessage, forwarded. rewrite Hdecode.
  unfold handleChatMessage, handleTypingEvent, handleReadReceipt.
  destruct (decide (Type_ msg = EventTypeMessage)) as [Hm|Hm].
  { by rewrite decide_True by by left. }
  destruct (decide (Type_ msg = EventTypeTyping)) as [Ht|Ht].
  { by rewrite decide_True by by right. }
  rewrite (decide_False (P := _ ∨ _)) by tauto.
  destruct Htag as [?|[?|Hr]]; [done..|]. by rewrite decide_True.
Qed.

(** X16.  A connection's life on the read side, end to end: the connection
    is registered with an open channel, every frame it reads decodes into an
    envelope of a recognized type, and the others have room.  Then
    [ReadPump] runs to its end; every other registered connection's queue
    has grown by the payloads of the "message" and "typing" frames, in the
    order read; the connection is gone from both maps and its channel is
    closed. *)
Theorem ReadPump_forwards_then_unregisters json_Unmarshal json_Marshal now
    order w c ch reads :
  clients (hub w) !! ID c = Some c →
  chans w !! Send c = Some ch → closed ch = false →
  Forall (recognized json_Unmarshal) reads →
  queues_distinct w →
  room_for (length (omap (forwarded json_Unmarshal) reads)) (ID c) w →
  range_order (clients (hub w)) order →
  ∃ w', perform_reads order w (ReadPump json_Unmarshal json_Marshal now c reads)
        = Returns w' ∧
    clients (hub w') = delete (ID c) (clients (hub w)) ∧
    userClients (hub w') = delete (UserID c) (userClients (hub w)) ∧
    chans w' !! Send c = Some (shut ch) ∧
    ∀ id c', clients (hub w) !! id = Some c' → id ≠ ID c →
      queue w' c' = queue w c' ++ omap (forwarded json_Unmarshal) reads.
Proof.
  intros Hc Hch Hopen Hreads Hdistinct Hroom Horder.
  set (ps := omap (forwarded json_Unmarshal) reads) in *.
  destruct (broadcasts_ok (ID c) ((λ p, (p, order)) <$> ps) w)
    as (w1 & Hrun1 & Hhub1 & Hchans1).
  { apply Forall_fmap, Forall_forall. by intros p _. }
  { done. }
  { by rewrite length_fmap. }
  assert (((λ p : string, (p, order)) <$> ps).*1 = ps) as Hfst.
  { rewrite <- list_fmap_compose. apply list_fmap_id. }
  rewrite Hfst in Hchans1.
  assert (chans w1 !! Send c = Some ch) as Hch1.
  { by rewrite (Hchans1 (ID c) c Hc), decide_True. }
  exists {| hub := {| clients := delete (ID c) (clients (hub w));
                      userClients := delete (UserID c) (userClients (hub w)) |};
            chans := <[Send c := shut ch]> (chans w1) |}.
  split_and!; [|done|done|apply lookup_insert_eq|].
  - unfold ReadPump. simpl. rewrite perform_reads_app. rewrite perform_reads_pumped.
    rewrite (recognized_effects _ _ _ _ _ Hreads). fold ps.
    rewrite perform_all_broadcasts, Hrun1. simpl.
    rewrite (unregisterClient_open w1 c ch); [|by rewrite Hhub1|done..].
    simpl. by rewrite Hhub1.
  - intros id c' Hc' Hne.
    assert (Send c' ≠ Send c) as Hother.
    { intros Heq. apply Hne. by eapply Hdistinct. }
    unfold queue at 1. simpl. rewrite lookup_insert_ne by done.
    fold (queue w1 c'). apply queue_push_list.
    + destruct (Hroom id c' Hc' Hne) as (ch' & -> & _). by eexists.
    + by rewrite (Hchans1 id c' Hc'), decide_False.
Qed.

Lemma world_AB_room_for n origin : n ≤ 256 → room_for n origin world_AB.
Proof.
  intros Hn id c Hc%world_AB_clients _. exists (make_chan sendBuffer).
  unfold order_AB in *.
  entry_cases Hc; (split_and!; [by vm_compute|done|simpl; unfold sendBuffer; lia]).
Qed.

Lemma ReadPump_forwards_then_unregisters_witness :
  clients (hub world_AB) !! ID client_A = Some client_A ∧
  Forall (recognized decodeEnvelope) [hi_frame; receipt_frame; typing_frame] ∧
  ∃ w', perform_reads order_AB world_AB
          (ReadPump decodeEnvelope encodeEnvelope noon client_A
                    [hi_frame; receipt_frame; typing_frame])
        = Returns w' ∧
    clients (hub w') !! "A" = None ∧
    closed <$> chans w' !! Send client_A = Some true ∧
    queue w' client_B = [hi_payload; object1 "chat" "c1"].
Proof.
  assert (clients (hub world_AB) !! ID client_A = Some client_A) as H1 by by vm_compute.
  assert (chans world_AB !! Send client_A = Some (make_chan sendBuffer)) as H2
    by by vm_compute.
  assert (Forall (recognized decodeEnvelope) [hi_frame; receipt_frame; typing_frame]) as H4.
  { repeat apply Forall_cons_2; [..|apply Forall_nil_2];
      (eexists; split; [by vm_compute|]); simpl; auto. }
  assert (room_for (length (omap (forwarded decodeEnvelope)
                              [hi_frame; receipt_frame; typing_frame]))
                   (ID client_A) world_AB) as H6.
  { apply world_AB_room_for. vm_compute. lia. }
  split; [exact H1|]. split; [exact H4|].
  destruct (ReadPump_forwards_then_unregisters decodeEnvelope encodeEnvelope noon
              order_AB world_AB client_A (make_chan sendBuffer)
              [hi_frame; receipt_frame; typing_frame]
              H1 H2 eq_refl H4 world_AB_distinct H6 world_AB_range_order)
    as (w' & Hrun & Hclients & _ & Hclosed & Hqueues).
  exists w'. split; [exact Hrun|]. split_and!.
  - rewrite Hclients. apply lookup_delete_eq.
  - by rewrite Hclosed.
  - etrans; [apply (Hqueues "B" client_B); by vm_compute|]. by vm_compute.
Defined.




(** * The handler and the constants *)

Lemma connect_channels_witness :
  queues_allocated world0 ∧ queues_distinct world0 ∧
  queues_allocated (connect "A" 1 world0).2 ∧
  queues_distinct (connect "A" 1 world0).2 ∧
  chans (connect "A" 1 world0).2 !! Send (connect "A" 1 world0).1
  = Some (make_chan sendBuffer).
Proof.
  split; [exact (proj1 world0_channels)|]. split; [exact (proj2 world0_channels)|].
  exact (connect_channels "A" 1 world0 (proj1 world0_channels) (proj2 world0_channels)).
Defined.

(** X19.  The keepalive periods: pings are sent every 54 seconds, strictly
    inside the 60 seconds the peer has to answer, as the comment on
    [pingPeriod] requires; and nine tenths of any positive wait is. *)
Theorem pingPeriod_less_than_pongWait :
  pingPeriod = (54 * second)%Z ∧ (0 < pingPeriod < pongWait)%Z ∧
  ∀ wait : Z, (0 < wait)%Z → ((wait * 9) `quot` 10 < wait)%Z.
Proof.
  split; [done|]. split; [by vm_compute|].
  intros wait Hwait. apply Z.quot_lt_upper_bound; lia.
Qed.
